(** * libosmium: mmap-backed vectors and the PBF string table

    A shallow embedding of

    - [osmium/index/detail/mmap_vector_base.hpp]  (class [mmap_vector_base<T>]),
    - [osmium/io/detail/string_table.hpp]         (classes [StringStore], [StringTable]),

    together with the mapping primitive they stand on, and the properties
    the library's description states about them.

    Conventions.  A [size_t] is a [Z] in [0, 2^64); every addition and
    subtraction the C++ performs on one is followed by [wrap_size].  The
    mapped region is a [list T] whose length is the capacity.  A member
    function becomes a computation [vec -> outcome vec A]: it ends normally
    with a value and a new object state, or throws and leaves an object
    state behind, or has no defined behaviour (an access outside the
    mapping, a failed [assert]). *)

From Stdlib Require Import Ascii.
From stdpp Require Import base numbers option list gmap strings.

Local Open Scope Z_scope.

(** ** Machine integers *)

Definition SIZE_MAX : Z := 2 ^ 64 - 1.

(** Arithmetic on [size_t] is modulo [2^64]. *)
Definition wrap_size (z : Z) : Z := z mod 2 ^ 64.

Definition UINT32_MAX : Z := 2 ^ 32 - 1.

Definition wrap_u32 (z : Z) : Z := z mod 2 ^ 32.

(** [constexpr size_t mmap_vector_size_increment = 1024 * 1024;] *)
Definition mmap_vector_size_increment : Z := 1024 * 1024.

(** ** Outcomes of a member function *)

(** The exceptions the code throws: [std::out_of_range] from [at],
    [std::system_error] from the mapping layer, [osmium::pbf_error] from the
    string table. *)
Inductive exn : Type :=
| out_of_range
| system_error
| pbf_error.

Inductive outcome (S A : Type) : Type :=
| Ok (x : A) (s : S)
| Throw (e : exn) (s : S)
| Undefined.

Arguments Ok {S A} x s.
Arguments Throw {S A} e s.
Arguments Undefined {S A}.

(** The object a caller still holds once the call is over; an exception
    does not destroy it. *)
Definition state_after {S A : Type} (o : outcome S A) : option S :=
  match o with
  | Ok _ s => Some s
  | Throw _ s => Some s
  | Undefined => None
  end.

Definition M (S A : Type) : Type := S -> outcome S A.

Definition ret {S A : Type} (x : A) : M S A := fun s => Ok x s.

Definition bind {S A B : Type} (c : M S A) (k : A -> M S B) : M S B :=
  fun s =>
    match c s with
    | Ok x s' => k x s'
    | Throw e s' => Throw e s'
    | Undefined => Undefined
    end.

Definition throw {S A : Type} (e : exn) : M S A := fun s => Throw e s.

Definition undefined {S A : Type} : M S A := fun _ => Undefined.

Definition gets {S A : Type} (f : S -> A) : M S A := fun s => Ok (f s) s.

Definition modify {S : Type} (f : S -> S) : M S unit := fun s => Ok tt (f s).

Declare Scope cpp_scope.
Delimit Scope cpp_scope with cpp.

Notation "'let*' x ':=' c 'in' k" := (bind c (fun x => k))
  (at level 10, x name, c at level 100, k at level 200) : cpp_scope.

Notation "c ';;;' k" := (bind c (fun _ => k))
  (at level 100, k at level 200, right associativity) : cpp_scope.

Local Open Scope cpp_scope.

(** ** What the element type and the platform supply *)

(** [mmap_vector_base<T>] asks three things of [T]: [operator==], the
    specialisation [osmium::index::empty_value<T>()] (declared in
    [osmium/index/index.hpp]: the value that marks a slot as not yet
    written), and, for files, the value whose bytes are all zero. *)
Class Element (T : Type) : Type := {
  elem_eq_dec :: EqDecision T;
  empty_value : T;
  zero_value : T;
}.

(** The mapping layer's two unknowns: what a slot holds before anyone has
    stored to it (the contract leaves it unspecified), and the largest
    element count that can still be mapped. *)
Class Platform (T : Type) : Type := {
  fresh : nat -> T;
  max_elems : Z;
}.

(** ** The mapping primitive *)

Section Mapping.

Context {T : Type} `{!Element T, !Platform T}.

(** Modelled from the spec: [osmium::util::TypedMemoryMapping<T>] of
    [osmium/util/memory_mapping.hpp], a region of [size()] elements,
    anonymous ([backing = None]) or shared with the file behind an
    open descriptor. *)
Record TypedMemoryMapping : Type := {
  cells : list T;
  backing : option Z;
}.

Definition mapping_size (m : TypedMemoryMapping) : Z :=
  Z.of_nat (length (cells m)).

(** Modelled from the spec: whether [map(n)] is granted; it "fails with a
    resource error when n is zero or exceeds addressable/available
    memory". *)
Definition can_map (n : Z) : bool :=
  bool_decide (0 < n ∧ n ≤ max_elems).

(** Modelled from the spec: [file_size(fd)], the element count stored in
    a file, which is "a flat, densely packed sequence of fixed-size T
    values with no header and no explicit length field". *)
Definition file_size (f : list T) : Z := Z.of_nat (length f).

(** Modelled from the spec: [grow_file(n, fd)] "extends the file to at
    least n elements (zero-filled) and is idempotent when the requested
    size does not exceed the current size". *)
Definition grow_file (n : Z) (f : list T) : list T :=
  f ++ replicate (Z.to_nat n - length f) zero_value.

(** Modelled from the spec: the anonymous mapping constructor
    [TypedMemoryMapping(size)]. *)
Definition mapping_anon (n : Z) : exn + TypedMemoryMapping :=
  if can_map n
  then inr {| cells := fresh <$> seq 0 (Z.to_nat n); backing := None |}
  else inl system_error.

(** Modelled from the spec: the file-backed mapping constructor
    [TypedMemoryMapping(size, write_shared, fd)]: the file is grown if
    needed and its first [n] elements are mapped. *)
Definition mapping_file (n fd : Z) (fs : gmap Z (list T))
  : exn + (TypedMemoryMapping * gmap Z (list T)) :=
  match fs !! fd with
  | None => inl system_error
  | Some f =>
      if can_map n
      then let f' := grow_file n f in
           inr ({| cells := take (Z.to_nat n) f'; backing := Some fd |},
                <[fd := f']> fs)
      else inl system_error
  end.

(** Modelled from the spec: [TypedMemoryMapping::resize(new_size)], the
    primitive's resize path: the first [min(old, new)] elements are kept,
    the added ones are unspecified, and "a failed call must leave any
    previously valid mapping untouched and usable". *)
Definition mapping_resize (n : Z) (m : TypedMemoryMapping)
  : exn + TypedMemoryMapping :=
  if can_map n
  then inr {| cells := take (Z.to_nat n) (cells m)
                        ++ (fresh <$> seq (length (cells m))
                                          (Z.to_nat n - length (cells m)));
              backing := backing m |}
  else inl system_error.

(** Modelled from the spec: [unmap()] of a shared file mapping; what was
    stored through the mapping is the file's content from then on. *)
Definition mapping_unmap (m : TypedMemoryMapping) (fs : gmap Z (list T))
  : gmap Z (list T) :=
  match backing m with
  | None => fs
  | Some fd => alter (fun f => cells m ++ drop (length (cells m)) f) fd fs
  end.

End Mapping.

Arguments TypedMemoryMapping : clear implicits.

(** ** [mmap_vector_base<T>] *)

Section MmapVector.

Context {T : Type} `{!Element T, !Platform T}.

(** The data members: [size_t m_size] and
    [osmium::util::TypedMemoryMapping<T> m_mapping]. *)
Record mmap_vector_base : Type := {
  m_size : Z;
  m_mapping : TypedMemoryMapping T;
}.

Definition set_size (n : Z) (a : mmap_vector_base) : mmap_vector_base :=
  {| m_size := n; m_mapping := m_mapping a |}.

Definition set_cells (d : list T) (a : mmap_vector_base)
  : mmap_vector_base :=
  {| m_size := m_size a;
     m_mapping := {| cells := d; backing := backing (m_mapping a) |} |}.

(** [size_t capacity() const noexcept] *)
Definition capacity (a : mmap_vector_base) : Z :=
  mapping_size (m_mapping a).

(** [size_t size() const noexcept] *)
Definition size (a : mmap_vector_base) : Z := m_size a.

(** [bool empty() const noexcept] *)
Definition empty (a : mmap_vector_base) : bool :=
  bool_decide (m_size a = 0).

(** [const_pointer data() const]: the mapped elements. *)
Definition data (a : mmap_vector_base) : list T := cells (m_mapping a).

(** Loading [data()[n]]; outside the mapping there is nothing to load. *)
Definition load (n : Z) : M mmap_vector_base T :=
  fun a =>
    if bool_decide (0 ≤ n)
    then match data a !! Z.to_nat n with
         | Some x => Ok x a
         | None => Undefined
         end
    else Undefined.

(** Storing to [data()[n]]. *)
Definition store (n : Z) (value : T) : M mmap_vector_base unit :=
  fun a =>
    if bool_decide (0 ≤ n ∧ n < capacity a)
    then Ok tt (set_cells (<[Z.to_nat n := value]> (data a)) a)
    else Undefined.

(** [std::fill_n(first, count, value)] on a region, one store per slot. *)
Fixpoint fill_n (d : list T) (first count : nat) (value : T)
  : option (list T) :=
  match count with
  | O => Some d
  | S count' =>
      if bool_decide (first < length d)%nat
      then fill_n (<[first := value]> d) (S first) count' value
      else None
  end.

(** [std::fill(data() + first, data() + last, value)]; the range must not
    be reversed. *)
Definition fill (first last : Z) (value : T) : M mmap_vector_base unit :=
  fun a =>
    if bool_decide (0 ≤ first ∧ first ≤ last)
    then match fill_n (data a) (Z.to_nat first) (Z.to_nat (last - first))
                 value with
         | Some d => Ok tt (set_cells d a)
         | None => Undefined
         end
    else Undefined.

(** [value_type at(size_t n) const] *)
Definition at_ (n : Z) : M mmap_vector_base T :=
  let* sz := gets m_size in
  if bool_decide (n >= sz)
  then throw out_of_range
  else load n.

(** [const_reference operator[](size_t n) const]; the [assert] is the
    caller's obligation. *)
Definition index (n : Z) : M mmap_vector_base T :=
  let* sz := gets m_size in
  if bool_decide (n < sz) then load n else undefined.

(** [void clear() noexcept] *)
Definition clear : M mmap_vector_base unit := modify (set_size 0).

(** The loop of [shrink_to_fit], on [n = m_size]:
    [while (n > 0 && data()[n - 1] == empty_value) --n;] *)
Fixpoint shrink_loop (d : list T) (n : nat) : option nat :=
  match n with
  | O => Some O
  | S n' =>
      match d !! n' with
      | None => None
      | Some x =>
          if decide (x = empty_value) then shrink_loop d n' else Some n
      end
  end.

(** [void shrink_to_fit()] *)
Definition shrink_to_fit : M mmap_vector_base unit :=
  fun a =>
    match shrink_loop (data a) (Z.to_nat (m_size a)) with
    | Some n => Ok tt (set_size (Z.of_nat n) a)
    | None => Undefined
    end.

(** [m_mapping.resize(new_capacity)] as a step of the vector. *)
Definition resize_mapping (new_capacity : Z) : M mmap_vector_base unit :=
  fun a =>
    match mapping_resize new_capacity (m_mapping a) with
    | inr m' => Ok tt {| m_size := m_size a; m_mapping := m' |}
    | inl e => Throw e a
    end.

(** [void reserve(size_t new_capacity)] *)
Definition reserve (new_capacity : Z) : M mmap_vector_base unit :=
  let* cap := gets capacity in
  if bool_decide (new_capacity > cap)
  then let old_capacity := cap in
       resize_mapping new_capacity ;;;
       fill old_capacity new_capacity empty_value
  else ret tt.

(** [void resize(size_t new_size)] *)
Definition resize (new_size : Z) : M mmap_vector_base unit :=
  let* cap := gets capacity in
  (if bool_decide (new_size > cap)
   then reserve (wrap_size (new_size + mmap_vector_size_increment))
   else ret tt) ;;;
  modify (set_size new_size).

(** [void push_back(const_reference value)] *)
Definition push_back (value : T) : M mmap_vector_base unit :=
  let* sz := gets m_size in
  resize (wrap_size (sz + 1)) ;;;
  let* sz' := gets m_size in
  store (wrap_size (sz' - 1)) value.

(** A constructor body runs on the object under construction; the caller
    gets the object only when the body ends normally. *)
Definition construct {W : Type} (body : M mmap_vector_base unit)
    (a : mmap_vector_base) : M W mmap_vector_base :=
  fun w =>
    match body a with
    | Ok _ a' => Ok a' w
    | Throw e _ => Throw e w
    | Undefined => Undefined
    end.

(** [explicit mmap_vector_base(size_t capacity = mmap_vector_size_increment)];
    its [std::fill_n(data(), capacity, v)] is
    [std::fill(data(), data() + capacity, v)].  The state threaded through
    is the table of open files, which this constructor leaves alone. *)
Definition mmap_vector_base_anon (capacity : Z)
  : M (gmap Z (list T)) mmap_vector_base :=
  fun fs =>
    match mapping_anon capacity with
    | inl e => Throw e fs
    | inr m =>
        construct (fill 0 capacity empty_value)
                  {| m_size := 0; m_mapping := m |} fs
    end.

(** [mmap_vector_base(int fd, size_t capacity, size_t size = 0)] *)
Definition mmap_vector_base_fd (fd capacity size : Z)
  : M (gmap Z (list T)) mmap_vector_base :=
  fun fs =>
    match mapping_file capacity fd fs with
    | inl e => Throw e fs
    | inr (m, fs') =>
        if bool_decide (size ≤ capacity)
        then construct (fill size capacity empty_value ;;; shrink_to_fit)
                       {| m_size := size; m_mapping := m |} fs'
        else Undefined
    end.

(** [void close()] *)
Definition close (a : mmap_vector_base)
  : gmap Z (list T) -> gmap Z (list T) :=
  mapping_unmap (m_mapping a).

(** The public operations, as a caller issues them one after the other. *)
Inductive op : Type :=
| OpPushBack (value : T)
| OpReserve (new_capacity : Z)
| OpResize (new_size : Z)
| OpClear
| OpShrinkToFit
| OpAt (n : Z).

Definition exec (o : op) : M mmap_vector_base unit :=
  match o with
  | OpPushBack value => push_back value
  | OpReserve new_capacity => reserve new_capacity
  | OpResize new_size => resize new_size
  | OpClear => clear
  | OpShrinkToFit => shrink_to_fit
  | OpAt n => at_ n ;;; ret tt
  end.

(** A caller that catches what is thrown and carries on with the same
    object; [None] once the behaviour is undefined. *)
Fixpoint exec_all (os : list op) (a : mmap_vector_base)
  : option mmap_vector_base :=
  match os with
  | [] => Some a
  | o :: os' =>
      match state_after (exec o a) with
      | Some a' => exec_all os' a'
      | None => None
      end
  end.


(** The persistence scenario: a file-backed vector of capacity 1000 on
    an open descriptor, ten values other than the empty one appended to
    it, the vector closed, and a second vector constructed on the same
    descriptor and capacity, with [reopen_size] for its third argument.
    Every step ends normally and the second vector shows the ten
    values. *)
Definition reopen_roundtrip (reopen_size : Z) : Prop :=
  ∀ (fd : Z) (fs : gmap Z (list T)) (f vs : list T),
    fs !! fd = Some f →
    length vs = 10%nat → Forall (λ v, v ≠ empty_value) vs →
    ∃ a fs1 a1 b fs2,
      mmap_vector_base_fd fd 1000 0 fs = Ok a fs1
      ∧ exec_all (OpPushBack <$> vs) a = Some a1
      ∧ mmap_vector_base_fd fd 1000 reopen_size (close a1 fs1) = Ok b fs2
      ∧ size b = 10
      ∧ ∀ (i : nat) v, vs !! i = Some v → at_ (Z.of_nat i) b = Ok v b.

(** The data-model invariant, [size <= capacity], for two [size_t]
    values. *)
Definition well_formed (a : mmap_vector_base) : Prop :=
  0 ≤ m_size a ∧ m_size a ≤ capacity a ∧ capacity a ≤ SIZE_MAX.

(** The arguments of an operation are [size_t] values. *)
Definition size_t_args (o : op) : Prop :=
  match o with
  | OpReserve n | OpResize n | OpAt n => 0 ≤ n ∧ n ≤ SIZE_MAX
  | _ => True
  end.

(** [resize]'s target [new_size + mmap_vector_size_increment] is computed
    without wrapping around. *)
Definition no_overflow (o : op) : Prop :=
  match o with
  | OpResize n => n + mmap_vector_size_increment ≤ SIZE_MAX
  | _ => True
  end.

(** An operation that may lower [size] without looking at the slots it
    gives up. *)
Definition lowers_size (o : op) (a : mmap_vector_base) : Prop :=
  match o with
  | OpClear => True
  | OpResize n => n < m_size a
  | _ => False
  end.

(** Every slot at an index in [[size, capacity)] holds the empty value. *)
Definition tail_empty (a : mmap_vector_base) : Prop :=
  ∀ i : nat, m_size a ≤ Z.of_nat i < capacity a →
             data a !! i = Some empty_value.

End MmapVector.

Arguments mmap_vector_base T : clear implicits.
Arguments op T : clear implicits.

(** The instance the unit tests use: [T = uint64_t], which on the 64-bit
    platforms is [size_t], whose empty value is [static_cast<size_t>(-1)]. *)
#[export] Instance uint64_element : Element Z :=
  {| empty_value := SIZE_MAX; zero_value := 0 |}.

(** A platform that hands out zeroed pages and maps up to [2^40] elements. *)
#[export] Instance zero_page_platform : Platform Z :=
  {| fresh := fun _ => 0; max_elems := 2 ^ 40 |}.

(** Two small vectors of [uint64_t] to run the operations on: one with room
    left, one full. *)
Definition sample_vector : mmap_vector_base Z :=
  {| m_size := 2;
     m_mapping := {| cells := [7; 8; SIZE_MAX; SIZE_MAX]; backing := None |} |}.

Definition full_vector : mmap_vector_base Z :=
  {| m_size := 4;
     m_mapping := {| cells := [7; 8; 9; 10]; backing := None |} |}.

(** ** [typed_mmap<T>::remap] *)

Section TypedMmap.

Context {T : Type} `{!Platform T}.

(** Modelled from the spec: [typed_mmap<T>::map(n)], of
    [osmium/index/detail/typed_mmap.hpp]: a region of [n] elements of
    unspecified content, or a resource error. *)
Definition typed_mmap_map (n : Z) : exn + list T :=
  if bool_decide (0 < n ∧ n ≤ max_elems)
  then inr (fresh <$> seq 0 (Z.to_nat n))
  else inl system_error.

(** Copying [count] elements from [src] to [dst], slot after slot, from
    slot [i] on. *)
Fixpoint copy_elements (src dst : list T) (i count : nat) : list T :=
  match count with
  | O => dst
  | S count' =>
      match src !! i with
      | Some x => copy_elements src (<[i := x]> dst) (S i) count'
      | None => dst
      end
  end.

(** The two ways a platform carries out [remap]. *)
Inductive remap_strategy : Type :=
| InPlaceExtension
| UnmapMapCopy.

(** Modelled from the spec: "where the platform supports atomic in-place
    extension, grow without copying". *)
Definition remap_in_place (base : list T) (old_n new_n : Z)
  : exn + list T :=
  if bool_decide (0 < new_n ∧ new_n ≤ max_elems)
  then inr (take (Z.to_nat new_n) base
            ++ (fresh <$> seq (Z.to_nat old_n)
                              (Z.to_nat new_n - Z.to_nat old_n)))
  else inl system_error.

(** Modelled from the spec: "otherwise unmap, map a fresh region of new_n
    elements, and copy min(old_n, new_n) elements before discarding the
    old region". *)
Definition remap_copy (base : list T) (old_n new_n : Z) : exn + list T :=
  match typed_mmap_map new_n with
  | inl e => inl e
  | inr region =>
      inr (copy_elements base region 0 (Z.to_nat (Z.min old_n new_n)))
  end.

(** Modelled from the spec: [typed_mmap<T>::remap(base, old_n, new_n)]. *)
Definition remap (how : remap_strategy) (base : list T) (old_n new_n : Z)
  : exn + list T :=
  match how with
  | InPlaceExtension => remap_in_place base old_n new_n
  | UnmapMapCopy => remap_copy base old_n new_n
  end.

End TypedMmap.

(** ** [StringStore] and [StringTable] *)

(** The terminator of a C string. *)
Definition NUL : Ascii.ascii := Ascii.zero.

(** A [const char*] argument denotes the text before its terminator; a
    [string] stands for such a text when no [NUL] occurs in it. *)
Fixpoint c_string (s : string) : Prop :=
  match s with
  | EmptyString => True
  | String c s' => c ≠ NUL ∧ c_string s'
  end.

(** The text a pointer into a chunk denotes: from [offset] up to the next
    [NUL]. *)
Fixpoint until_nul (s : string) : string :=
  match s with
  | EmptyString => EmptyString
  | String c s' => if decide (c = NUL) then EmptyString
                   else String c (until_nul s')
  end.

Fixpoint string_drop (n : nat) (s : string) : string :=
  match n, s with
  | O, _ => s
  | S n', EmptyString => EmptyString
  | S n', String _ s' => string_drop n' s'
  end.

(** [size_t m_chunk_size; std::list<std::string> m_chunks;] with the front
    of the list first. *)
Record StringStore : Type := {
  m_chunk_size : Z;
  m_chunks : list string;
}.

(** [std::string::reserve]: the [capacity()] of an empty string after
    [reserve(n)] is at least [n]; how much more is the library's choice. *)
Class StringCapacity : Type := {
  reserved_capacity : Z → Z;
  reserved_capacity_ge : ∀ n, n ≤ reserved_capacity n;
}.

(** The choice of GNU libstdc++, whose strings have a buffer of 15 bytes
    of their own: a request that buffer meets leaves it, one below twice
    its size is rounded up to twice its size, a larger one is met as
    asked. *)
Definition libstdcxx_reserve (n : Z) : Z :=
  if decide (n ≤ 15) then 15 else if decide (n < 30) then 30 else n.

#[export] Instance libstdcxx_capacity : StringCapacity :=
  {| reserved_capacity := libstdcxx_reserve;
     reserved_capacity_ge :=
       ltac:(intros n; unfold libstdcxx_reserve; repeat case_decide; lia) |}.

(** [m_chunks.front().capacity()]: every chunk is an empty string on which
    [add_chunk] has called [reserve(m_chunk_size)]; [add] appends to a
    chunk only what its capacity holds and [clear()] keeps the storage of
    a string, so the capacity of a chunk stays what [reserve] left. *)
Definition chunk_capacity `{!StringCapacity} (st : StringStore) : Z :=
  reserved_capacity (m_chunk_size st).

(** A pointer into the store: the chunk, counted from the back of the list
    (chunks are only ever pushed at the front), and the offset in it. *)
Definition char_ptr : Type := (nat * nat)%type.

Definition deref (st : StringStore) (p : char_ptr) : string :=
  match reverse (m_chunks st) !! p.1 with
  | Some chunk => until_nul (string_drop p.2 chunk)
  | None => EmptyString
  end.

(** [void add_chunk()] *)
Definition add_chunk (st : StringStore) : StringStore :=
  {| m_chunk_size := m_chunk_size st;
     m_chunks := EmptyString :: m_chunks st |}.

(** [StringStore(size_t chunk_size)] *)
Definition StringStore_new (chunk_size : Z) : StringStore :=
  add_chunk {| m_chunk_size := chunk_size; m_chunks := [] |}.

(** [void clear() noexcept]: all chunks but the front one are erased, the
    front one is emptied. *)
Definition StringStore_clear (st : StringStore) : StringStore :=
  {| m_chunk_size := m_chunk_size st; m_chunks := [EmptyString] |}.

(** [const char* add(const char* string)] *)
Definition StringStore_add `{!StringCapacity} (s : string)
  : M StringStore char_ptr :=
  fun st =>
    let len := Z.of_nat (String.length s) + 1 in
    if bool_decide (len ≤ m_chunk_size st)
    then
      match m_chunks st with
      | [] => Undefined
      | front :: _ =>
          let chunk_len := Z.of_nat (String.length front) in
          let st' := if bool_decide (chunk_len + len > chunk_capacity st)
                     then add_chunk st else st in
          let chunk_len' := if bool_decide (chunk_len + len > chunk_capacity st)
                            then 0%nat else String.length front in
          match m_chunks st' with
          | [] => Undefined
          | front' :: rest =>
              Ok (length rest, chunk_len')
                 {| m_chunk_size := m_chunk_size st';
                    m_chunks :=
                      (front' +:+ s +:+ String NUL EmptyString) :: rest |}
          end
      end
    else Undefined.

(** [StringStore m_strings; std::map<const char*, size_t, StrComp> m_index;
    uint32_t m_size;]  [StrComp] orders the keys by [strcmp] on the texts
    they point to, and the store never rewrites a text it holds, so the map
    is keyed by text. *)
Record StringTable : Type := {
  m_strings : StringStore;
  m_index : gmap string Z;
  st_size : Z;
}.

(** [StringTable()] *)
Definition StringTable_new `{!StringCapacity} : option StringTable :=
  match StringStore_add EmptyString (StringStore_new (1024 * 1024)) with
  | Ok _ st => Some {| m_strings := st; m_index := ∅; st_size := 0 |}
  | _ => None
  end.

(** [uint32_t size() const noexcept] *)
Definition StringTable_size (t : StringTable) : Z := wrap_u32 (st_size t + 1).

Section StringTableAdd.

Context `{!StringCapacity}.

(** [static constexpr const uint32_t max_entries =
    max_uncompressed_blob_size;] with the constant of
    [osmium/io/detail/pbf.hpp]. *)
Variable max_entries : Z.

(** [m_strings.add(s)] as a step of the table. *)
Definition store_add (s : string) : M StringTable char_ptr :=
  fun t =>
    match StringStore_add s (m_strings t) with
    | Ok cs st => Ok cs {| m_strings := st; m_index := m_index t;
                           st_size := st_size t |}
    | Throw e _ => Throw e t
    | Undefined => Undefined
    end.

(** [++m_size] *)
Definition pre_increment_size : M StringTable Z :=
  fun t =>
    let n := wrap_u32 (st_size t + 1) in
    Ok n {| m_strings := m_strings t; m_index := m_index t; st_size := n |}.

(** [m_index[cs] = n] *)
Definition index_assign (cs : char_ptr) (n : Z) : M StringTable unit :=
  fun t =>
    Ok tt {| m_strings := m_strings t;
             m_index := <[deref (m_strings t) cs := n]> (m_index t);
             st_size := st_size t |}.

(** [uint32_t add(const char* s)] *)
Definition StringTable_add (s : string) : M StringTable Z :=
  let* idx := gets m_index in
  match idx !! s with
  | Some second => ret (wrap_u32 second)
  | None =>
      let* cs := store_add s in
      let* n := pre_increment_size in
      index_assign cs n ;;;
      let* sz := gets st_size in
      if bool_decide (sz > max_entries)
      then throw pbf_error
      else ret sz
  end.

(** A caller adding the strings of a list in turn, collecting what each
    call returned ([None] for a call that threw). *)
Fixpoint add_all (l : list string) (t : StringTable)
  : option (list (option Z) * StringTable) :=
  match l with
  | [] => Some ([], t)
  | s :: l' =>
      match StringTable_add s t with
      | Ok i t' =>
          match add_all l' t' with
          | Some (rs, t'') => Some (Some i :: rs, t'')
          | None => None
          end
      | Throw _ t' =>
          match add_all l' t' with
          | Some (rs, t'') => Some (None :: rs, t'')
          | None => None
          end
      | Undefined => None
      end
  end.

End StringTableAdd.

(** A text the store can take: a C string that fits a chunk of the table's
    store with its terminator. *)
Definition storable (s : string) : Prop :=
  c_string s ∧ Z.of_nat (String.length s) + 1 ≤ 1024 * 1024.

(** The state of a table between two calls, as the members relate: the
    store has its chunk size and a front chunk, [m_size] counts the keys of
    the index, the indices are [1 .. m_size], each given once. *)
Definition table_ok (t : StringTable) : Prop :=
  m_chunks (m_strings t) ≠ []
  ∧ m_chunk_size (m_strings t) = 1024 * 1024
  ∧ st_size t = Z.of_nat (base.size (m_index t))
  ∧ (∀ s i, m_index t !! s = Some i → 1 ≤ i ≤ st_size t)
  ∧ (∀ s s' i, m_index t !! s = Some i → m_index t !! s' = Some i → s = s')
  ∧ (st_size t = 0 ∨ ∃ s, m_index t !! s = Some (st_size t)).

(** [max_uncompressed_blob_size] as [osmium/io/detail/pbf.hpp] has it in
    the library's releases: 32 MiB. *)
Definition max_uncompressed_blob_size : Z := 32 * 1024 * 1024.

(** The first texts one would think of to fill a table: the binary
    numerals, least significant digit first. *)
Fixpoint numeral (p : positive) : string :=
  match p with
  | xH => String "1"%char EmptyString
  | xO q => String "0"%char (numeral q)
  | xI q => String "1"%char (numeral q)
  end.

Definition numerals (n : nat) : list string :=
  (λ j, numeral (Pos.of_succ_nat j)) <$> seq 0 n.

(** "Adding a string not yet present returns a fresh index", for every
    table a caller can have built: at the least, the call returns. *)
Definition add_returns_an_index `{!StringCapacity} (max_entries : Z)
  : Prop :=
  ∀ (l : list string) (s : string) t0 rs t,
    Forall storable l → storable s → s ∉ l →
    StringTable_new = Some t0 →
    add_all max_entries l t0 = Some (rs, t) →
    ∃ i t', StringTable_add max_entries s t = Ok i t'.

(** ** Walking a [StringStore] *)





(** [StringStore::const_iterator]: [m_it], a position in the list of chunks
    counted from its front ([m_last], the end of the list, is its length),
    and [m_pos], an offset into that chunk or [nullptr]. *)
Record const_iterator : Type := {
  m_it : nat;
  m_pos : option nat;
}.

(** [const_iterator(it_type it, it_type last)] with [last = m_chunks.end()] *)
Definition const_iterator_at (st : StringStore) (it : nat) : const_iterator :=
  {| m_it := it;
     m_pos := if decide (it = length (m_chunks st)) then None else Some 0%nat |}.

(** [const_iterator end() const] *)
Definition StringStore_end (st : StringStore) : const_iterator :=
  const_iterator_at st (length (m_chunks st)).

(** [const_iterator begin() const] *)
Definition StringStore_begin (st : StringStore) : option const_iterator :=
  match m_chunks st with
  | [] => None
  | front :: _ =>
      Some (if decide (front = EmptyString) then StringStore_end st
            else const_iterator_at st 0)
  end.

(** [bool operator==(const const_iterator& rhs) const] *)
Definition const_iterator_eq (i j : const_iterator) : bool :=
  bool_decide (m_it i = m_it j ∧ m_pos i = m_pos j).

(** How far [while (m_pos != last_pos && *m_pos) ++m_pos;] moves over what
    is left of the chunk. *)
Fixpoint text_length (s : string) : nat :=
  match s with
  | EmptyString => O
  | String c s' => if decide (c = NUL) then O else S (text_length s')
  end.

(** [const_iterator& operator++()]; not for an iterator at the end. *)
Definition const_iterator_next (st : StringStore) (i : const_iterator)
  : option const_iterator :=
  match m_chunks st !! m_it i, m_pos i with
  | Some chunk, Some pos =>
      let last_pos := String.length chunk in
      if decide (pos ≤ last_pos)%nat
      then
        let pos1 := (pos + text_length (string_drop pos chunk))%nat in
        let pos2 := if decide (pos1 = last_pos) then pos1 else S pos1 in
        Some (if decide (pos2 = last_pos)
              then const_iterator_at st (S (m_it i))
              else {| m_it := m_it i; m_pos := Some pos2 |})
      else None
  | _, _ => None
  end.

(** [const char* operator*() const], as the text pointed to. *)
Definition const_iterator_deref (st : StringStore) (i : const_iterator)
  : option string :=
  match m_chunks st !! m_it i, m_pos i with
  | Some chunk, Some pos => Some (until_nul (string_drop pos chunk))
  | _, _ => None
  end.

(** [for (; it != end(); ++it) ... *it ...], at most [fuel] rounds. *)
Fixpoint collect_texts (fuel : nat) (st : StringStore) (i : const_iterator)
  : option (list string) :=
  match fuel with
  | O => None
  | S fuel' =>
      if const_iterator_eq i (StringStore_end st) then Some []
      else
        match const_iterator_deref st i, const_iterator_next st i with
        | Some s, Some i' =>
            match collect_texts fuel' st i' with
            | Some r => Some (s :: r)
            | None => None
            end
        | _, _ => None
        end
  end.

(** The texts a loop from [begin()] to [end()] sees.  Each round moves on by
    a byte or by a chunk, which bounds the rounds. *)
Definition StringStore_texts (st : StringStore) : option (list string) :=
  match StringStore_begin st with
  | None => None
  | Some b =>
      collect_texts
        (S (foldr (λ chunk n, S (String.length chunk) + n)%nat O (m_chunks st)))
        st b
  end.

(** A chunk that holds the texts of a list, each with its terminator. *)
Fixpoint pack (texts : list string) : string :=
  match texts with
  | [] => EmptyString
  | s :: texts' => s +:+ String NUL (pack texts')
  end.

(** The bytes a list of texts takes in a store. *)
Definition bytes_of (l : list string) : Z :=
  Z.of_nat (String.length (pack l)).

(** [void clear()] of the table *)
Definition StringTable_clear `{!StringCapacity} (t : StringTable)
  : option StringTable :=
  match StringStore_add EmptyString (StringStore_clear (m_strings t)) with
  | Ok _ st => Some {| m_strings := st; m_index := ∅; st_size := 0 |}
  | _ => None
  end.

(** [StringStore::const_iterator begin() const] to [end()] of the table:
    the loop over its store. *)
Definition StringTable_texts (t : StringTable) : option (list string) :=
  StringStore_texts (m_strings t).

(** The texts an iterator has before it, as the loop meets them. *)
Inductive walks (st : StringStore) : const_iterator → list string → Prop :=
| walks_end : walks st (StringStore_end st) []
| walks_step i i' s l :
    const_iterator_eq i (StringStore_end st) = false →
    const_iterator_deref st i = Some s →
    const_iterator_next st i = Some i' →
    walks st i' l →
    walks st i (s :: l).

(** A store whose chunks, from the front, hold the texts of [ess]: no chunk
    is empty, but for the only chunk of a store nothing was added to, and
    none holds more than its capacity. *)
Definition store_holds `{!StringCapacity} (st : StringStore)
    (ess : list (list string)) : Prop :=
  m_chunks st = pack <$> ess
  ∧ Forall (Forall c_string) ess
  ∧ (ess = [[]] ∨ (ess ≠ [] ∧ Forall (λ es, es ≠ []) ess))
  ∧ Forall (λ es, bytes_of es ≤ chunk_capacity st) ess.

(** A pointer that points to the start of a text a chunk holds with its
    terminator. *)
Definition points_to (st : StringStore) (p : char_ptr) (s : string) : Prop :=
  ∃ pre rest,
    reverse (m_chunks st) !! p.1 = Some (pre +:+ s +:+ String NUL rest)
    ∧ p.2 = String.length pre
    ∧ c_string s.

(** A long text to fill a chunk with: [n] times the character [c]. *)
Fixpoint string_repeat (c : Ascii.ascii) (n : nat) : string :=
  match n with
  | O => EmptyString
  | S n' => String c (string_repeat c n')
  end.


(** A table whose store holds, in the chunks [ess] (newest first), the
    empty text of the constructor and then [keys] in the order they were
    added, the index mapping the text at place [i] of that order to [i]. *)
Definition table_lists `{!StringCapacity} (t : StringTable)
    (keys : list string) (ess : list (list string)) : Prop :=
  store_holds (m_strings t) ess
  ∧ m_chunk_size (m_strings t) = 1024 * 1024
  ∧ concat (reverse ess) = EmptyString :: keys
  ∧ (bytes_of (EmptyString :: keys) ≤ chunk_capacity (m_strings t)
     → ess = [EmptyString :: keys])
  ∧ st_size t = Z.of_nat (length keys)
  ∧ ∀ s i, m_index t !! s = Some i
           ↔ 1 ≤ i ∧ keys !! Z.to_nat (i - 1) = Some s.

(** ** [OutputFactory] *)

Section OutputFactoryModel.

(** [osmium::io::Encoding*]: the formats are told apart by the address of
    their [Encoding] object. *)
Context {Encoding : Type} `{Countable Encoding}.

(** [osmium::io::File] with its [encoding()], [data_queue_type] and
    [osmium::io::Output], all declared outside these files. *)
Context {File Queue Output : Type}.

Variable encoding : File → Encoding.

(** [std::function<osmium::io::Output*(const osmium::io::File&,
    data_queue_type&)>] *)
Definition create_output_type : Type := File → Queue → Output.

(** [encoding2create_type m_callbacks;] *)
Record OutputFactory : Type := {
  m_callbacks : gmap Encoding create_output_type;
}.

(** [OutputFactory()] *)
Definition OutputFactory_new : OutputFactory := {| m_callbacks := ∅ |}.

(** [bool register_output_format(std::vector<osmium::io::Encoding*>
    encodings, create_output_type create_function)]: [std::map::insert]
    leaves the map alone and answers [second == false] when the key is
    there. *)
Fixpoint register_output_format (encodings : list Encoding)
    (create_function : create_output_type) (f : OutputFactory)
  : bool * OutputFactory :=
  match encodings with
  | [] => (true, f)
  | e :: encodings' =>
      match m_callbacks f !! e with
      | Some _ => (false, f)
      | None =>
          register_output_format encodings' create_function
            {| m_callbacks := <[e := create_function]> (m_callbacks f) |}
      end
  end.

(** [bool unregister_output_format(osmium::io::Encoding* encoding)] *)
Definition unregister_output_format (e : Encoding) (f : OutputFactory)
  : bool * OutputFactory :=
  (bool_decide (is_Some (m_callbacks f !! e)),
   {| m_callbacks := delete e (m_callbacks f) |}).

(** What [create_output] ends with: the output the callback made, or
    [osmium::io::File::FileEncodingNotSupported] thrown. *)
Inductive created : Type :=
| Created (output : Output)
| FileEncodingNotSupported.

(** [std::unique_ptr<osmium::io::Output> create_output(const
    osmium::io::File& file, data_queue_type& output_queue)] *)
Definition create_output (file : File) (output_queue : Queue)
    (f : OutputFactory) : created :=
  match m_callbacks f !! encoding file with
  | Some create_function => Created (create_function file output_queue)
  | None => FileEncodingNotSupported
  end.

End OutputFactoryModel.

Arguments OutputFactory Encoding {_ _} File Queue Output.
Arguments created Output : clear implicits.
Arguments FileEncodingNotSupported {Output}.

(** ** [FileOutput::operator()] *)

Section FileOutputModel.

(** What is behind the descriptor, and
    [osmium::io::detail::reliable_write(fd, data, size)] acting on it. *)
Context {Sink : Type}.

Variable reliable_write : Sink → string → Sink.

(** The loop of the output thread, on the strings the futures of the queue
    deliver, in the order [wait_and_pop] hands them out:
    [do { pop; data = future.get(); write data; } while (!data.empty());]
    With nothing left in the queue, [wait_and_pop] waits: [None]. *)
Fixpoint FileOutput_run (queue : list string) (sink : Sink)
  : option (list string * Sink) :=
  match queue with
  | [] => None
  | data :: queue' =>
      let sink' := reliable_write sink data in
      if decide (data = EmptyString)
      then Some (queue', sink')
      else FileOutput_run queue' sink'
  end.

End FileOutputModel.

(** ** Iterating a vector *)

Section MmapVectorRange.

Context {T : Type} `{!Element T, !Platform T}.

(** What [for (auto it = begin(); it != end(); ++it)] reads through [*it]:
    [count] slots from slot [pos] on.  [begin()] is [data()] and [end()] is
    [data() + m_size]; a slot outside the mapping cannot be read. *)
Fixpoint read_range (d : list T) (pos count : nat) : option (list T) :=
  match count with
  | O => Some []
  | S count' =>
      match d !! pos with
      | None => None
      | Some x =>
          match read_range d (S pos) count' with
          | Some r => Some (x :: r)
          | None => None
          end
      end
  end.

(** The loop from [begin()] to [end()]. *)
Definition iterate : M (mmap_vector_base T) (list T) :=
  fun a =>
    match read_range (data a) 0 (Z.to_nat (m_size a)) with
    | Some l => Ok l a
    | None => Undefined
    end.

End MmapVectorRange.

(** * Properties *)

(** ** Regions: [fill] and the trimming loop *)

Section RegionFacts.

Context {T : Type} `{!Element T}.

Lemma fill_n_in_range (d : list T) (first count : nat) (v : T) :
  (first + count ≤ length d)%nat →
  fill_n d first count v
  = Some (take first d ++ replicate count v ++ drop (first + count) d).
Proof.
  revert d first. induction count as [|c IH]; intros d first Hlen; simpl.
  - by rewrite Nat.add_0_r, take_drop.
  - rewrite bool_decide_true by lia.
    rewrite IH by (rewrite length_insert; lia).
    rewrite (take_S_r _ _ v) by (apply list_lookup_insert_eq; lia).
    rewrite take_insert_ge by lia.
    rewrite drop_insert_lt by lia.
    rewrite <- app_assoc. simpl.
    by rewrite Nat.add_succ_r.
Qed.

Lemma fill_n_length (d d' : list T) (first count : nat) (v : T) :
  fill_n d first count v = Some d' → length d' = length d.
Proof.
  revert d first. induction count as [|c IH]; intros d first; simpl.
  - by intros [= ->].
  - case_bool_decide; [|done]. intros Hfill%IH.
    by rewrite length_insert in Hfill.
Qed.

(** The loop stops, and where: at the last non-empty slot below [n], or
    at 0. *)
Lemma shrink_loop_spec (d : list T) (n : nat) :
  (n ≤ length d)%nat →
  ∃ k, shrink_loop d n = Some k ∧ (k ≤ n)%nat
       ∧ (∀ i, (k ≤ i < n)%nat → d !! i = Some empty_value)
       ∧ (k = 0%nat ∨ ∃ x, d !! (k - 1)%nat = Some x ∧ x ≠ empty_value).
Proof.
  induction n as [|n IH]; intros Hn; simpl.
  - exists 0%nat. repeat split; [lia | | by left]. intros i Hi; lia.
  - destruct (lookup_lt_is_Some_2 d n) as [x Hx]; [lia|]. rewrite Hx.
    destruct (decide (x = empty_value)) as [->|Hne].
    + destruct IH as (k & Hk & Hle & Hall & Hstop); [lia|].
      exists k. repeat split; [done | lia | | done].
      intros i Hi. destruct (decide (i = n)) as [->|]; [done|].
      apply Hall; lia.
    + exists (S n). repeat split; [lia | intros i Hi; lia |].
      right. exists x. by replace (S n - 1)%nat with n by lia.
Qed.

Lemma shrink_loop_unique (d : list T) (n k k' : nat) :
  (k ≤ n)%nat → (k' ≤ n)%nat →
  (∀ i, (k ≤ i < n)%nat → d !! i = Some empty_value) →
  (∀ i, (k' ≤ i < n)%nat → d !! i = Some empty_value) →
  (k = 0%nat ∨ ∃ x, d !! (k - 1)%nat = Some x ∧ x ≠ empty_value) →
  (k' = 0%nat ∨ ∃ x, d !! (k' - 1)%nat = Some x ∧ x ≠ empty_value) →
  k = k'.
Proof.
  intros Hk Hk' Hall Hall' Hstop Hstop'.
  destruct (Nat.lt_trichotomy k k') as [Hlt|[->|Hlt]]; [|done|].
  - destruct Hstop' as [->|(x & Hx & Hne)]; [lia|].
    rewrite Hall in Hx by lia. congruence.
  - destruct Hstop as [->|(x & Hx & Hne)]; [lia|].
    rewrite Hall' in Hx by lia. congruence.
Qed.

End RegionFacts.

(** ** What each operation of the vector computes *)

Section VectorFacts.

Context {T : Type} `{!Element T, !Platform T}.

Implicit Types a : mmap_vector_base T.

Lemma capacity_nonneg a : 0 ≤ capacity a.
Proof. unfold capacity, mapping_size. lia. Qed.

Lemma capacity_to_nat a : Z.to_nat (capacity a) = length (data a).
Proof. unfold capacity, mapping_size, data. lia. Qed.

Lemma capacity_set_cells d a :
  capacity (set_cells d a) = Z.of_nat (length d).
Proof. done. Qed.

Lemma reserve_enough a n : n ≤ capacity a → reserve n a = Ok tt a.
Proof.
  intros Hn. unfold reserve, bind, gets.
  by rewrite bool_decide_false by lia.
Qed.

Lemma reserve_grows a n :
  capacity a < n → n ≤ max_elems →
  reserve n a
  = Ok tt (set_cells (data a ++ replicate (Z.to_nat (n - capacity a))
                                          empty_value) a).
Proof.
  intros Hn Hmax. pose proof (capacity_nonneg a) as Hcap.
  unfold reserve, bind, gets. rewrite bool_decide_true by lia.
  unfold resize_mapping, mapping_resize, can_map.
  rewrite bool_decide_true by lia.
  unfold fill. rewrite bool_decide_true by lia.
  unfold data at 1. cbn [m_mapping cells].
  rewrite capacity_to_nat. unfold data.
  set (c := cells (m_mapping a)).
  assert (Hc : capacity a = Z.of_nat (length c)) by done.
  rewrite take_ge by lia.
  rewrite fill_n_in_range
    by (rewrite length_app, length_fmap, length_seq; lia).
  rewrite take_app_length.
  rewrite drop_ge by (rewrite length_app, length_fmap, length_seq; lia).
  by rewrite app_nil_r.
Qed.

Lemma reserve_fails a n :
  capacity a < n → max_elems < n → reserve n a = Throw system_error a.
Proof.
  intros Hn Hmax. unfold reserve, bind, gets.
  rewrite bool_decide_true by lia.
  unfold resize_mapping, mapping_resize, can_map.
  by rewrite bool_decide_false by lia.
Qed.

Lemma resize_within a n :
  n ≤ capacity a → resize n a = Ok tt (set_size n a).
Proof.
  intros Hn. unfold resize, bind, gets.
  by rewrite bool_decide_false by lia.
Qed.

Lemma resize_beyond a n :
  capacity a < n →
  resize n a
  = match reserve (wrap_size (n + mmap_vector_size_increment)) a with
    | Ok _ a' => Ok tt (set_size n a')
    | Throw e a' => Throw e a'
    | Undefined => Undefined
    end.
Proof.
  intros Hn. unfold resize, bind, gets.
  by rewrite bool_decide_true by lia.
Qed.

Lemma push_back_unfold a v :
  push_back v a
  = match resize (wrap_size (m_size a + 1)) a with
    | Ok _ a' => store (wrap_size (m_size a' - 1)) v a'
    | Throw e a' => Throw e a'
    | Undefined => Undefined
    end.
Proof.
  unfold push_back, bind, gets.
  by destruct (resize _ a).
Qed.

Lemma wrap_size_small z : 0 ≤ z ≤ SIZE_MAX → wrap_size z = z.
Proof. unfold wrap_size, SIZE_MAX. intros. apply Z.mod_small. lia. Qed.

Lemma wrap_size_range z : 0 ≤ wrap_size z ≤ SIZE_MAX.
Proof.
  unfold wrap_size, SIZE_MAX.
  pose proof (Z.mod_pos_bound z (2 ^ 64)). lia.
Qed.

Lemma set_cells_data a : set_cells (data a) a = a.
Proof. by destruct a as [sz [d b]]. Qed.

(** The array once its mapping has [k] more slots, all empty. *)
Local Abbreviation extended k a :=
  (set_cells (data a ++ replicate k empty_value) a).

Lemma extended_0 a : extended 0 a = a.
Proof. cbn. rewrite app_nil_r. apply set_cells_data. Qed.

Lemma reserve_eq a n :
  reserve n a
  = if decide (n ≤ capacity a) then Ok tt a
    else if decide (n ≤ max_elems)
         then Ok tt (extended (Z.to_nat (n - capacity a)) a)
         else Throw system_error a.
Proof.
  destruct (decide (n ≤ capacity a)); [by apply reserve_enough|].
  destruct (decide (n ≤ max_elems)).
  - apply reserve_grows; lia.
  - apply reserve_fails; lia.
Qed.

Lemma resize_eq a n :
  let t := wrap_size (n + mmap_vector_size_increment) in
  resize n a
  = if decide (n ≤ capacity a ∨ t ≤ capacity a) then Ok tt (set_size n a)
    else if decide (t ≤ max_elems)
         then Ok tt (set_size n (extended (Z.to_nat (t - capacity a)) a))
         else Throw system_error a.
Proof.
  intros t. destruct (decide (n ≤ capacity a)) as [Hn|Hn].
  - rewrite decide_True by lia. by apply resize_within.
  - rewrite resize_beyond by lia. fold t. rewrite reserve_eq.
    destruct (decide (t ≤ capacity a)).
    + by rewrite decide_True by lia.
    + destruct (decide (n ≤ capacity a ∨ t ≤ capacity a)); [lia|].
      by destruct (decide (t ≤ max_elems)).
Qed.

(** Whatever [resize] does, it stores nothing: the slots there were keep
    their content, and the slots added are empty. *)
Lemma resize_ok a n u a' :
  resize n a = Ok u a' →
  ∃ k : nat, a' = set_size n (extended k a).
Proof.
  rewrite resize_eq. cbn zeta.
  repeat case_decide; intros [= <- <-] || intros [=].
  - exists 0%nat. by rewrite extended_0.
  - by eexists.
Qed.

Lemma resize_throw a n e a' :
  resize n a = Throw e a' →
  e = system_error ∧ a' = a
  ∧ capacity a < n
  ∧ capacity a < wrap_size (n + mmap_vector_size_increment)
  ∧ max_elems < wrap_size (n + mmap_vector_size_increment).
Proof.
  rewrite resize_eq. cbn zeta.
  repeat case_decide; intros [= <- <-] || intros [=].
  repeat split; lia.
Qed.

Lemma resize_defined a n : resize n a ≠ Undefined.
Proof. rewrite resize_eq. cbn zeta. by repeat case_decide. Qed.

Lemma wrap_size_pred_succ s :
  0 ≤ s ≤ SIZE_MAX → wrap_size (wrap_size (s + 1) - 1) = s.
Proof.
  unfold SIZE_MAX. intros Hs. unfold wrap_size.
  destruct (decide (s = 2 ^ 64 - 1)) as [->|Hne].
  - by vm_compute.
  - rewrite (Z.mod_small (s + 1)) by lia.
    replace (s + 1 - 1) with s by lia. apply Z.mod_small. lia.
Qed.

(** A [push_back] that ends normally stored [v] at slot [size] (the size
    before the call), which then lies inside the mapping. *)
Lemma push_back_ok a v u a' :
  0 ≤ m_size a ≤ SIZE_MAX →
  push_back v a = Ok u a' →
  ∃ k : nat,
    a' = set_size (wrap_size (m_size a + 1))
           (set_cells (<[Z.to_nat (m_size a) := v]>
                         (data a ++ replicate k empty_value)) a)
    ∧ m_size a < Z.of_nat (length (data a) + k).
Proof.
  intros Hs. rewrite push_back_unfold.
  destruct (resize _ a) as [u1 a1| |] eqn:Hres; [|done..].
  apply resize_ok in Hres as [k ->].
  cbn [m_size set_size]. rewrite wrap_size_pred_succ by done.
  unfold store. case_bool_decide as Hin; [|done].
  intros [= <- <-]. exists k. split; [done|].
  unfold capacity, mapping_size in Hin. cbn in Hin.
  rewrite length_app, length_replicate in Hin. lia.
Qed.

Lemma push_back_throw a v e a' :
  push_back v a = Throw e a' → e = system_error ∧ a' = a.
Proof.
  rewrite push_back_unfold.
  destruct (resize _ a) as [u1 a1|e1 a1|] eqn:Hres; [| |done].
  - unfold store. by case_bool_decide.
  - intros [= <- <-]. by apply resize_throw in Hres as (-> & -> & _).
Qed.

(** *** The constructors *)

Lemma mmap_vector_base_anon_eq c (fs : gmap Z (list T)) :
  mmap_vector_base_anon c fs
  = if decide (0 < c ∧ c ≤ max_elems)
    then Ok {| m_size := 0;
               m_mapping := {| cells := replicate (Z.to_nat c) empty_value;
                               backing := None |} |} fs
    else Throw system_error fs.
Proof.
  unfold mmap_vector_base_anon, mapping_anon, can_map.
  case_decide as Hc.
  - rewrite bool_decide_true by done.
    unfold construct, fill. rewrite bool_decide_true by lia.
    cbn [data m_mapping cells].
    rewrite fill_n_in_range
      by (rewrite length_fmap, length_seq; lia).
    rewrite drop_ge by (rewrite length_fmap, length_seq; lia).
    cbn. rewrite app_nil_r. by replace (c - 0) with c by lia.
  - by rewrite bool_decide_false by done.
Qed.

Lemma grow_file_length n (f : list T) :
  (Z.to_nat n ≤ length (grow_file n f))%nat.
Proof. unfold grow_file. rewrite length_app, length_replicate. lia. Qed.

(** The slots of a file-backed vector once the constructor has filled
    [[size, capacity)]. *)
Lemma mmap_vector_base_fd_eq fd c sz (fs : gmap Z (list T)) f :
  fs !! fd = Some f → 0 < c ≤ max_elems → 0 ≤ sz ≤ c →
  let d := take (Z.to_nat sz) (grow_file c f)
           ++ replicate (Z.to_nat (c - sz)) empty_value in
  ∃ k : nat,
    shrink_loop d (Z.to_nat sz) = Some k
    ∧ mmap_vector_base_fd fd c sz fs
      = Ok {| m_size := Z.of_nat k;
              m_mapping := {| cells := d; backing := Some fd |} |}
           (<[fd := grow_file c f]> fs).
Proof.
  intros Hfd Hc Hsz d.
  pose proof (grow_file_length c f) as Hg.
  assert (Hd : length d = Z.to_nat c).
  { subst d. rewrite length_app, length_take, length_replicate. lia. }
  destruct (shrink_loop_spec d (Z.to_nat sz)) as (k & Hk & _); [lia|].
  exists k. split; [done|].
  unfold mmap_vector_base_fd, mapping_file, can_map. rewrite Hfd.
  rewrite bool_decide_true by done. rewrite bool_decide_true by lia.
  unfold construct, bind, fill. rewrite bool_decide_true by lia.
  cbn [data m_mapping cells].
  rewrite fill_n_in_range by (rewrite length_take; lia).
  rewrite take_take, Nat.min_l by lia.
  rewrite drop_ge by (rewrite length_take; lia).
  rewrite app_nil_r. fold d.
  unfold shrink_to_fit. cbn [data set_cells m_mapping cells m_size].
  by rewrite Hk.
Qed.

(** *** Capacities stay [size_t] values *)

Lemma resize_capacity_range a n u a' :
  capacity a ≤ SIZE_MAX → resize n a = Ok u a' → capacity a' ≤ SIZE_MAX.
Proof.
  intros Hc. rewrite resize_eq. cbn zeta.
  pose proof (wrap_size_range (n + mmap_vector_size_increment)) as Hw.
  pose proof (capacity_nonneg a) as H0.
  repeat case_decide; intros [= <- <-] || intros [=]; [done|].
  unfold capacity, mapping_size, data in *. cbn.
  rewrite length_app, length_replicate. lia.
Qed.

End VectorFacts.

(** ** The operations, one at a time *)

Section VectorClaims.

Context {T : Type} `{!Element T, !Platform T}.

Implicit Types a : mmap_vector_base T.

Lemma shrink_loop_sound (d : list T) (n k : nat) :
  shrink_loop d n = Some k →
  (k ≤ n)%nat
  ∧ (∀ i, (k ≤ i < n)%nat → d !! i = Some empty_value)
  ∧ (k = 0%nat ∨ ∃ x, d !! (k - 1)%nat = Some x ∧ x ≠ empty_value).
Proof.
  revert k. induction n as [|n IH]; intros k; simpl.
  - intros [= <-]. repeat split; [lia | intros i Hi; lia | by left].
  - destruct (d !! n) as [x|] eqn:Hx; [|done].
    destruct (decide (x = empty_value)) as [->|Hne].
    + intros (Hle & Hall & Hstop)%IH. repeat split; [lia | | done].
      intros i Hi. destruct (decide (i = n)) as [->|]; [done|].
      apply Hall; lia.
    + intros [= <-]. repeat split; [lia | intros i Hi; lia |].
      right. exists x. by replace (S n - 1)%nat with n by lia.
Qed.

(** C3. [shrink_to_fit()] on an array with [size <= capacity] ends
    normally and only changes [size]; the new size [k] is what stepping
    down from [size] while the slot below is empty arrives at: every slot
    in [[k, size)] is empty and either [k = 0] or slot [k - 1] is not
    empty, and no other number has that property.  In particular, slots
    [[0,5)] non-empty and [[5,100)] empty with size 100 give size 5, and
    an array whose slots below [size] are all empty gives size 0. *)
Theorem shrink_to_fit_trims_trailing_empty a :
  well_formed a →
  (∃ k : nat,
      shrink_to_fit a = Ok tt (set_size (Z.of_nat k) a)
      ∧ Z.of_nat k ≤ m_size a
      ∧ (∀ i : nat, Z.of_nat k ≤ Z.of_nat i < m_size a →
                    data a !! i = Some empty_value)
      ∧ (k = 0%nat ∨ ∃ x, data a !! (k - 1)%nat = Some x ∧ x ≠ empty_value)
      ∧ (∀ k' : nat,
            Z.of_nat k' ≤ m_size a →
            (∀ i : nat, Z.of_nat k' ≤ Z.of_nat i < m_size a →
                        data a !! i = Some empty_value) →
            (k' = 0%nat
             ∨ ∃ x, data a !! (k' - 1)%nat = Some x ∧ x ≠ empty_value) →
            k' = k))
  ∧ (m_size a = 100 →
     (∀ i x, (i < 5)%nat → data a !! i = Some x → x ≠ empty_value) →
     (∀ i, (5 ≤ i < 100)%nat → data a !! i = Some empty_value) →
     shrink_to_fit a = Ok tt (set_size 5 a)
     ∧ size (set_size 5 a) = 5)
  ∧ ((∀ i : nat, Z.of_nat i < m_size a → data a !! i = Some empty_value) →
     shrink_to_fit a = Ok tt (set_size 0 a)
     ∧ size (set_size 0 a) = 0).
Proof.
  intros (Hpos & Hcap & Hrange).
  assert (Hlen : (Z.to_nat (m_size a) ≤ length (data a))%nat)
    by (rewrite <- capacity_to_nat; lia).
  destruct (shrink_loop_spec (data a) _ Hlen) as (k & Hk & Hle & Hall & Hstop).
  assert (Hrun : shrink_to_fit a = Ok tt (set_size (Z.of_nat k) a))
    by (unfold shrink_to_fit; by rewrite Hk).
  assert (Huniq : ∀ k' : nat,
             Z.of_nat k' ≤ m_size a →
             (∀ i : nat, Z.of_nat k' ≤ Z.of_nat i < m_size a →
                         data a !! i = Some empty_value) →
             (k' = 0%nat
              ∨ ∃ x, data a !! (k' - 1)%nat = Some x ∧ x ≠ empty_value) →
             k' = k).
  { intros k' Hle' Hall' Hstop'.
    apply (shrink_loop_unique (data a) (Z.to_nat (m_size a))); try done.
    - lia.
    - intros i Hi. apply Hall'. lia. }
  split; [|split].
  - exists k. repeat split; try done; [lia|].
    intros i Hi. apply Hall. lia.
  - intros Hsz Hfront Hback. split; [|done].
    rewrite Hrun. do 2 f_equal.
    symmetry. change 5 with (Z.of_nat 5). f_equal.
    apply Huniq; [lia | intros i Hi; apply Hback; lia |].
    right. destruct (lookup_lt_is_Some_2 (data a) 4) as [x Hx]; [lia|].
    exists x. split; [done|]. by apply (Hfront 4%nat); [lia|].
  - intros Hempty. split; [|done].
    rewrite Hrun. do 2 f_equal.
    symmetry. change 0 with (Z.of_nat 0). f_equal.
    apply Huniq; [lia | intros i Hi; apply Hempty; lia | by left].
Qed.

Lemma store_in_range a n v :
  0 ≤ n < capacity a →
  store n v a = Ok tt (set_cells (<[Z.to_nat n := v]> (data a)) a).
Proof. intros Hn. unfold store. by rewrite bool_decide_true by lia. Qed.

(** C4. On an array with [s = size <= capacity = c], and [s + 1 +
    increment] representable as a [size_t], where the increment is
    1,048,576 elements, [push_back(v)] is [resize(s + 1)] followed by the
    store to slot [s].  The resize leaves capacity alone when [s + 1 <= c]
    and otherwise makes it [s + 1 + 1048576], the old slots kept and the
    new ones empty; it stores nothing.  After the call slot [s] holds [v],
    size is [s + 1] and the slots below [s] are as before.  When the
    mapping cannot be grown the call throws and the array is untouched. *)
Theorem push_back_secures_capacity_then_writes a v :
  well_formed a →
  m_size a + 1 + 1048576 ≤ SIZE_MAX →
  let s := m_size a in
  let c' := if bool_decide (s + 1 > capacity a)
            then s + 1 + 1048576
            else capacity a in
  ((s + 1 > capacity a → c' ≤ max_elems) →
   ∃ a1 a2,
     resize (s + 1) a = Ok tt a1
     ∧ capacity a1 = c'
     ∧ data a1
       = data a ++ replicate (Z.to_nat (c' - capacity a)) empty_value
     ∧ push_back v a = store s v a1
     ∧ push_back v a = Ok tt a2
     ∧ capacity a2 = c'
     ∧ size a2 = s + 1
     ∧ data a2 !! Z.to_nat s = Some v
     ∧ ∀ i : nat, Z.of_nat i < s → data a2 !! i = data a !! i)
  ∧ (s + 1 > capacity a → max_elems < c' →
     push_back v a = Throw system_error a).
Proof.
  intros (Hpos & Hcap & Hrange) Hfit s c'.
  assert (Hinc : mmap_vector_size_increment = 1048576) by reflexivity.
  rewrite <- Hinc in Hfit. subst c'. rewrite <- Hinc.
  set (c' := if bool_decide (s + 1 > capacity a)
             then s + 1 + mmap_vector_size_increment
             else capacity a).
  assert (Hmax : SIZE_MAX = 18446744073709551615) by done.
  assert (Hw1 : wrap_size (s + 1) = s + 1)
    by (apply wrap_size_small; subst s; lia).
  assert (Hlen : Z.of_nat (length (data a)) = capacity a) by done.
  rewrite push_back_unfold. fold s. rewrite Hw1.
  subst c'. case_bool_decide as Hgrow.
  - (* s + 1 > capacity: the mapping has to grow *)
    rewrite resize_beyond by lia.
    rewrite wrap_size_small by (subst s; lia).
    split.
    + intros Hok. specialize (Hok Hgrow). rewrite reserve_grows by lia.
      set (d1 := data a ++ replicate _ empty_value).
      assert (Hd1 : Z.of_nat (length d1)
                    = s + 1 + mmap_vector_size_increment).
      { subst d1. rewrite length_app, length_replicate. lia. }
      set (a1 := set_size (s + 1) (set_cells d1 a)).
      assert (Hs1 : wrap_size (m_size a1 - 1) = s).
      { cbn. replace (s + 1 - 1) with s by lia.
        apply wrap_size_small. subst s; lia. }
      rewrite Hs1.
      assert (Hst : store s v a1
                    = Ok tt (set_cells (<[Z.to_nat s := v]> d1) a1)).
      { apply (store_in_range a1). unfold capacity, mapping_size. cbn.
        subst s. lia. }
      exists a1, (set_cells (<[Z.to_nat s := v]> d1) a1).
      repeat split; try done.
      * unfold capacity, mapping_size. cbn. by rewrite length_insert.
      * cbn. apply list_lookup_insert_eq. subst s. lia.
      * intros i Hi. cbn. rewrite list_lookup_insert_ne by lia.
        subst d1. apply lookup_app_l. lia.
    + intros _ Hno. by rewrite reserve_fails by lia.
  - (* enough capacity already *)
    rewrite resize_within by lia.
    split; [|done].
    intros _.
    set (a1 := set_size (s + 1) a).
    assert (Hs1 : wrap_size (m_size a1 - 1) = s).
    { cbn. replace (s + 1 - 1) with s by lia.
      apply wrap_size_small. subst s; lia. }
    rewrite Hs1.
    assert (Hst : store s v a1
                  = Ok tt (set_cells (<[Z.to_nat s := v]> (data a)) a1)).
    { apply (store_in_range a1). unfold capacity, mapping_size. cbn.
      unfold capacity, mapping_size in *. subst s. lia. }
    exists a1, (set_cells (<[Z.to_nat s := v]> (data a)) a1).
    repeat split; try done.
    * cbn. by rewrite Z.sub_diag, app_nil_r.
    * unfold capacity, mapping_size. cbn. by rewrite length_insert.
    * cbn. apply list_lookup_insert_eq.
      unfold capacity, mapping_size, data in *. subst s. lia.
    * intros i Hi. cbn. by rewrite list_lookup_insert_ne by lia.
Qed.

(** C7. [reserve(new_capacity)] with [new_capacity <= capacity] leaves
    the array as it is.  With [new_capacity > capacity] and the mapping
    granted, capacity is exactly [new_capacity], every slot in
    [[old capacity, new_capacity)] is empty, the slots below the old
    capacity and [size] are as before; with the mapping refused it throws
    and leaves the array as it is. *)
Theorem reserve_grows_exactly_and_fills a new_capacity :
  (new_capacity ≤ capacity a → reserve new_capacity a = Ok tt a)
  ∧ (capacity a < new_capacity → new_capacity ≤ max_elems →
     ∃ a',
       reserve new_capacity a = Ok tt a'
       ∧ capacity a' = new_capacity
       ∧ size a' = size a
       ∧ backing (m_mapping a') = backing (m_mapping a)
       ∧ take (length (data a)) (data a') = data a
       ∧ (∀ i : nat, Z.of_nat i < capacity a →
                     data a' !! i = data a !! i)
       ∧ (∀ i : nat, capacity a ≤ Z.of_nat i < new_capacity →
                     data a' !! i = Some empty_value))
  ∧ (capacity a < new_capacity → max_elems < new_capacity →
     reserve new_capacity a = Throw system_error a).
Proof.
  pose proof (capacity_nonneg a) as Hc.
  assert (Hlen : Z.of_nat (length (data a)) = capacity a) by done.
  split; [apply reserve_enough | split; [|apply reserve_fails]].
  intros Hgt Hok. rewrite reserve_grows by done.
  eexists. split; [done|].
  repeat split.
  - unfold capacity at 1, mapping_size. cbn.
    rewrite length_app, length_replicate. lia.
  - cbn. by rewrite take_app_length.
  - intros i Hi. cbn. apply lookup_app_l. lia.
  - intros i Hi. cbn. rewrite lookup_app_r by lia.
    apply lookup_replicate_2. lia.
Qed.

Lemma reserve_throw a n e a' :
  reserve n a = Throw e a' →
  e = system_error ∧ a' = a ∧ capacity a < n ∧ max_elems < n.
Proof.
  rewrite reserve_eq.
  repeat case_decide; intros [= <- <-] || intros [=].
  repeat split; lia.
Qed.

Lemma mapping_resize_refused a n :
  mapping_resize n (m_mapping a) = inl system_error → ¬ (0 < n ≤ max_elems).
Proof. unfold mapping_resize, can_map. by case_bool_decide. Qed.

(** C8. When the mapping layer refuses the resize that [reserve],
    [resize] or [push_back] asks for, the operation throws the same
    [system_error] and the array (size, capacity, every slot) is the one
    before the call; and these operations throw nothing else, so whenever
    one of them throws the array is untouched.  In [push_back] the store
    is therefore not reached. *)
Theorem failed_growth_leaves_array_untouched a :
  (∀ n, capacity a < n →
        mapping_resize n (m_mapping a) = inl system_error →
        reserve n a = Throw system_error a)
  ∧ (∀ n, let t := wrap_size (n + mmap_vector_size_increment) in
          capacity a < n → capacity a < t →
          mapping_resize t (m_mapping a) = inl system_error →
          resize n a = Throw system_error a)
  ∧ (∀ v, let n := wrap_size (m_size a + 1) in
          let t := wrap_size (n + mmap_vector_size_increment) in
          capacity a < n → capacity a < t →
          mapping_resize t (m_mapping a) = inl system_error →
          push_back v a = Throw system_error a
          ∧ resize n a = Throw system_error a)
  ∧ (∀ n e a', reserve n a = Throw e a' → e = system_error ∧ a' = a)
  ∧ (∀ n e a', resize n a = Throw e a' → e = system_error ∧ a' = a)
  ∧ (∀ v e a', push_back v a = Throw e a' → e = system_error ∧ a' = a).
Proof.
  pose proof (capacity_nonneg a) as Hc.
  assert (Hres : ∀ n, let t := wrap_size (n + mmap_vector_size_increment) in
             capacity a < n → capacity a < t →
             mapping_resize t (m_mapping a) = inl system_error →
             resize n a = Throw system_error a).
  { intros n t Hn Ht Hno%mapping_resize_refused.
    rewrite resize_eq. fold t.
    rewrite decide_False by lia. by rewrite decide_False by lia. }
  repeat split.
  - intros n Hn Hno%mapping_resize_refused. apply reserve_fails; lia.
  - done.
  - rewrite push_back_unfold. by rewrite Hres.
  - by apply Hres.
  - by apply reserve_throw in H as (-> & _).
  - by apply reserve_throw in H as (_ & -> & _).
  - by apply resize_throw in H as (-> & _).
  - by apply resize_throw in H as (_ & -> & _).
  - by apply push_back_throw in H as (-> & _).
  - by apply push_back_throw in H as (_ & ->).
Qed.

(** What one operation leaves behind, slot by slot. *)
Lemma exec_summary o a a' :
  0 ≤ m_size a ≤ SIZE_MAX → size_t_args o →
  state_after (exec o a) = Some a' →
  match o with
  | OpPushBack v =>
      (a' = a ∧ ∃ e, exec o a = Throw e a)
      ∨ (exec o a = Ok tt a'
         ∧ ∃ k : nat,
             a' = set_size (wrap_size (m_size a + 1))
                    (set_cells (<[Z.to_nat (m_size a) := v]>
                                  (data a ++ replicate k empty_value)) a)
             ∧ m_size a < Z.of_nat (length (data a) + k))
  | OpReserve n =>
      ∃ k : nat, a' = set_cells (data a ++ replicate k empty_value) a
  | OpResize n =>
      a' = a
      ∨ ∃ k : nat,
          a' = set_size n (set_cells (data a ++ replicate k empty_value) a)
  | OpClear => a' = set_size 0 a
  | OpShrinkToFit =>
      ∃ j : nat, a' = set_size (Z.of_nat j) a
                 ∧ Z.of_nat j ≤ m_size a
                 ∧ ∀ i : nat, Z.of_nat j ≤ Z.of_nat i < m_size a →
                              data a !! i = Some empty_value
  | OpAt n => a' = a
  end.
Proof.
  intros Hs Hargs. destruct o as [v|n|n| | |n]; cbn [exec].
  - destruct (push_back v a) as [[] a1|e a1|] eqn:Hpb; intros [= <-].
    + right. split; [done|]. by apply push_back_ok in Hpb.
    + left. apply push_back_throw in Hpb as [-> ->]. eauto.
  - rewrite reserve_eq. repeat case_decide; intros [= <-].
    + exists 0%nat. cbn. by rewrite app_nil_r, set_cells_data.
    + by eexists.
    + exists 0%nat. cbn. by rewrite app_nil_r, set_cells_data.
  - destruct (resize n a) as [[] a1|e a1|] eqn:Hr; intros [= <-].
    + right. by apply resize_ok in Hr.
    + left. by apply resize_throw in Hr as (_ & -> & _).
  - by intros [= <-].
  - unfold shrink_to_fit.
    destruct (shrink_loop _ _) as [j|] eqn:Hj; intros [= <-].
    apply shrink_loop_sound in Hj as (Hle & Hall & _).
    exists j. repeat split; [lia|]. intros i Hi. apply Hall. lia.
  - unfold at_, bind, gets, throw, load, ret.
    repeat case_bool_decide; try by intros [= <-].
    destruct (data a !! _); by intros [= <-].
Qed.




Lemma push_back_capacity_range a v u a' :
  capacity a ≤ SIZE_MAX → push_back v a = Ok u a' → capacity a' ≤ SIZE_MAX.
Proof.
  intros Hc. rewrite push_back_unfold.
  destruct (resize _ a) as [u1 a1| |] eqn:Hres; [|done..].
  apply resize_capacity_range in Hres; [|done].
  unfold store. case_bool_decide; [|done]. intros [= <- <-].
  unfold capacity, mapping_size in *. cbn. by rewrite length_insert.
Qed.

Lemma tail_empty_extended a (k : nat) n :
  tail_empty a → m_size a ≤ n →
  tail_empty (set_size n (set_cells (data a ++ replicate k empty_value) a)).
Proof.
  intros Htail Hn i. unfold capacity, mapping_size. cbn.
  rewrite length_app, length_replicate. intros Hi.
  destruct (decide (i < length (data a))%nat) as [Hlt|Hge].
  - rewrite lookup_app_l by done. apply Htail.
    unfold capacity, mapping_size, data in *. lia.
  - rewrite lookup_app_r by lia. apply lookup_replicate_2. lia.
Qed.

Lemma tail_empty_step o a a' :
  well_formed a → size_t_args o → tail_empty a → ¬ lowers_size o a →
  state_after (exec o a) = Some a' → tail_empty a'.
Proof.
  intros (Hpos & Hle & Hmax) Hargs Htail Hkeep Hrun.
  assert (Hs : 0 ≤ m_size a ≤ SIZE_MAX) by lia.
  pose proof (exec_summary o a a' Hs Hargs Hrun) as Hsum.
  destruct o as [v|n|n| | |n]; cbn in Hkeep.
  - destruct Hsum as [[-> _]|(Hok & k & -> & Hlt)]; [done|].
    cbn [exec] in Hok.
    apply push_back_capacity_range in Hok; [|done].
    unfold capacity, mapping_size in Hok. cbn in Hok.
    rewrite length_insert, length_app, length_replicate in Hok.
    rewrite wrap_size_small by lia.
    intros i. unfold capacity, mapping_size. cbn.
    rewrite length_insert. intros Hi.
    rewrite list_lookup_insert_ne by lia.
    apply (tail_empty_extended a k (m_size a) Htail); [lia|].
    unfold capacity, mapping_size. cbn. lia.
  - destruct Hsum as [k ->].
    by apply (tail_empty_extended a k (m_size a)).
  - destruct Hsum as [->|[k ->]]; [done|].
    apply tail_empty_extended; [done|lia].
  - done.
  - destruct Hsum as (j & -> & Hj & Hall).
    intros i Hi. cbn in Hi. change (data (set_size _ a)) with (data a).
    destruct (decide (Z.of_nat i < m_size a)); [apply Hall; lia|].
    apply Htail. change (capacity (set_size _ a)) with (capacity a) in Hi.
    lia.
  - by subst.
Qed.

(** C5, as the code has it.  [[size, capacity)] is all empty after either
    constructor, and an operation on a well-formed array that does not
    lower [size] blindly (any of them but [clear()] and a [resize] to less
    than [size]) keeps it so.  [clear()] and a shrinking [resize] change
    [size] only: no slot is refilled, so the slots from the old size on
    are still empty and those in [[new size, old size)] hold what they
    held. *)
Theorem tail_empty_unless_size_is_lowered :
  (∀ c (fs fs' : gmap Z (list T)) a,
      mmap_vector_base_anon c fs = Ok a fs' → tail_empty a)
  ∧ (∀ fd c sz (fs fs' : gmap Z (list T)) a,
        0 ≤ sz → mmap_vector_base_fd fd c sz fs = Ok a fs' → tail_empty a)
  ∧ (∀ o a a',
        well_formed a → size_t_args o → tail_empty a → ¬ lowers_size o a →
        state_after (exec o a) = Some a' → tail_empty a')
  ∧ (∀ o a a',
        well_formed a → tail_empty a → lowers_size o a →
        state_after (exec o a) = Some a' →
        data a' = data a ∧ capacity a' = capacity a
        ∧ size a' = match o with OpResize n => n | _ => 0 end
        ∧ ∀ i : nat, m_size a ≤ Z.of_nat i < capacity a' →
                     data a' !! i = Some empty_value).
Proof.
  split; [|split; [|split]].
  - intros c fs fs' a. rewrite mmap_vector_base_anon_eq.
    case_decide; [|done]. intros [= <- <-] i.
    unfold capacity, mapping_size. cbn. rewrite length_replicate.
    intros Hi. apply lookup_replicate_2. lia.
  - intros fd c sz fs fs' a Hsz.
    unfold mmap_vector_base_fd, mapping_file.
    destruct (fs !! fd) as [f|] eqn:Hfd; [|done].
    unfold can_map. case_bool_decide as Hc; [|done].
    case_bool_decide as Hle; [|done].
    destruct (mmap_vector_base_fd_eq fd c sz fs f Hfd Hc)
      as (k & Hk & Heq); [lia|].
    unfold mmap_vector_base_fd, mapping_file, can_map in Heq.
    rewrite Hfd in Heq. rewrite !bool_decide_true in Heq by done.
    rewrite Heq. intros [= <- <-].
    apply shrink_loop_sound in Hk as (Hkle & Hall & _).
    intros i. unfold capacity, mapping_size. cbn.
    rewrite length_app, length_take, length_replicate.
    pose proof (grow_file_length c f). intros Hi.
    destruct (decide (i < Z.to_nat sz)%nat); [apply Hall; lia|].
    rewrite lookup_app_r by (rewrite length_take; lia).
    apply lookup_replicate_2. rewrite length_take. lia.
  - apply tail_empty_step.
  - intros o a a' (Hpos & Hle & Hmax) Htail Hlow Hrun.
    assert (Ha' : a' = set_size (match o with OpResize n => n | _ => 0 end)
                         a).
    { destruct o as [v|n|n| | |n]; cbn in Hlow; try done.
      - cbn [exec] in Hrun. rewrite resize_within in Hrun by lia.
        by injection Hrun as <-.
      - by injection Hrun as <-. }
    subst a'. repeat split. intros i Hi. by apply Htail.
Qed.

Lemma at_eq a n :
  at_ n a
  = if decide (n >= m_size a) then Throw out_of_range a
    else if decide (0 ≤ n)
         then match data a !! Z.to_nat n with
              | Some x => Ok x a
              | None => Undefined
              end
         else Undefined.
Proof.
  unfold at_, bind, gets, throw, load.
  repeat case_bool_decide; repeat case_decide; try done; lia.
Qed.

Lemma at_in_range a n :
  well_formed a → 0 ≤ n < m_size a →
  ∃ x, data a !! Z.to_nat n = Some x ∧ at_ n a = Ok x a.
Proof.
  intros (Hpos & Hle & _) Hn. rewrite at_eq.
  rewrite decide_False by lia. rewrite decide_True by lia.
  destruct (lookup_lt_is_Some_2 (data a) (Z.to_nat n)) as [x Hx].
  { unfold capacity, mapping_size, data in *. lia. }
  exists x. by rewrite Hx.
Qed.



(** *** Closing and reopening a file-backed vector *)

Lemma push_back_within a v :
  well_formed a → m_size a + 1 ≤ capacity a →
  push_back v a
  = Ok tt (set_cells (<[Z.to_nat (m_size a) := v]> (data a))
                     (set_size (m_size a + 1) a)).
Proof.
  intros (Hpos & Hle & Hmax) Hroom.
  rewrite push_back_unfold.
  rewrite wrap_size_small by lia. rewrite resize_within by done.
  cbn [m_size set_size]. replace (m_size a + 1 - 1) with (m_size a) by lia.
  rewrite wrap_size_small by lia.
  by rewrite store_in_range
    by (change (capacity (set_size _ a)) with (capacity a); lia).
Qed.

(** Appending [vs] where there is room writes them from slot [size] on. *)
Lemma push_backs_within vs :
  ∀ a, well_formed a →
       m_size a + Z.of_nat (length vs) ≤ capacity a →
       ∃ a1, exec_all (OpPushBack <$> vs) a = Some a1
             ∧ m_size a1 = m_size a + Z.of_nat (length vs)
             ∧ backing (m_mapping a1) = backing (m_mapping a)
             ∧ length (data a1) = length (data a)
             ∧ ∀ i : nat,
                 data a1 !! i
                 = if decide (Z.to_nat (m_size a) ≤ i
                              < Z.to_nat (m_size a) + length vs)%nat
                   then vs !! (i - Z.to_nat (m_size a))%nat
                   else data a !! i.
Proof.
  induction vs as [|v vs IH]; intros a Hwf Hroom; cbn [fmap list_fmap exec_all].
  - exists a. repeat split; [cbn; lia|]. intros i.
    case_decide; [cbn in *; lia|done].
  - pose proof Hwf as (Hpos & Hle & Hmax). cbn [length] in Hroom.
    cbn [exec]. rewrite push_back_within by (done || lia).
    cbn [state_after].
    set (a' := set_cells _ _).
    assert (Hsz : m_size a' = m_size a + 1) by done.
    assert (Hlen' : length (data a') = length (data a))
      by (subst a'; cbn; by rewrite length_insert).
    destruct (IH a') as (a1 & Hrun & Hsz1 & Hb & Hlen & Hdata).
    { unfold well_formed, capacity, mapping_size in *. fold (data a').
      fold (data a) in Hle, Hmax, Hroom. rewrite Hlen', Hsz. lia. }
    { unfold capacity, mapping_size in *. fold (data a').
      fold (data a) in Hroom. rewrite Hlen', Hsz. lia. }
    exists a1. split; [done|]. rewrite Hsz1, Hb, Hlen, Hlen', Hsz.
    repeat split; [cbn [length]; lia|]. intros i. rewrite Hdata, Hsz.
    assert (Hin : (Z.to_nat (m_size a) < length (data a))%nat).
    { unfold capacity, mapping_size, data in *. lia. }
    cbn [length].
    destruct (decide (i = Z.to_nat (m_size a))) as [->|Hne].
    + rewrite decide_False by lia. rewrite decide_True by lia.
      rewrite Nat.sub_diag. subst a'. cbn.
      by rewrite list_lookup_insert_eq.
    + repeat case_decide; try lia.
      * replace (i - Z.to_nat (m_size a))%nat
          with (S (i - Z.to_nat (m_size a + 1))) by lia.
        done.
      * subst a'. cbn. by rewrite list_lookup_insert_ne.
Qed.

(** Reopening with an initial size that covers what was appended finds
    it again. *)
Lemma reopen_recovers fd c r (fs : gmap Z (list T)) f vs :
  fs !! fd = Some f → 0 < c ≤ max_elems → c ≤ SIZE_MAX →
  Z.of_nat (length vs) ≤ r ≤ c →
  Forall (λ v, v ≠ empty_value) vs →
  ∃ a fs1 a1 b fs2,
    mmap_vector_base_fd fd c 0 fs = Ok a fs1
    ∧ exec_all (OpPushBack <$> vs) a = Some a1
    ∧ mmap_vector_base_fd fd c r (close a1 fs1) = Ok b fs2
    ∧ size b = Z.of_nat (length vs)
    ∧ ∀ (i : nat) v, vs !! i = Some v → at_ (Z.of_nat i) b = Ok v b.
Proof.
  intros Hfd Hc Hmax Hr Hvs.
  destruct (mmap_vector_base_fd_eq fd c 0 fs f Hfd Hc) as (k & Hk & Hctor);
    [lia|].
  change (Z.to_nat 0) with 0%nat in Hk, Hctor.
  rewrite take_0, app_nil_l, Z.sub_0_r in Hk, Hctor.
  injection Hk as <-.
  set (a := {| m_size := Z.of_nat 0; m_mapping := _ |}) in Hctor.
  assert (Hwf : well_formed a).
  { unfold well_formed, capacity, mapping_size. cbn.
    rewrite length_replicate. lia. }
  destruct (push_backs_within vs a Hwf)
    as (a1 & Hrun & Hsz1 & Hb1 & Hlen1 & Hdata1).
  { unfold capacity, mapping_size. cbn. rewrite length_replicate. lia. }
  change (m_size a) with 0 in Hsz1, Hdata1.
  change (data a) with (replicate (Z.to_nat c) empty_value) in Hlen1, Hdata1.
  rewrite length_replicate in Hlen1.
  set (fs1 := <[fd := grow_file c f]> fs) in *.
  assert (Hfd1 : close a1 fs1 !! fd
                 = Some (data a1 ++ drop (length (data a1)) (grow_file c f))).
  { unfold close, mapping_unmap. rewrite Hb1. cbn [backing m_mapping a].
    subst fs1. by rewrite lookup_alter_eq, lookup_insert_eq. }
  destruct (mmap_vector_base_fd_eq fd c r _ _ Hfd1 Hc)
    as (k & Hk & Hctor2); [lia|].
  cbn zeta in Hk, Hctor2.
  set (d2 := take (Z.to_nat r) _ ++ _) in Hk, Hctor2.
  assert (Hd2 : d2 = data a1).
  { apply list_eq. intros i. subst d2.
    destruct (decide (i < Z.to_nat r)%nat) as [Hi|Hi].
    - rewrite lookup_app_l by (rewrite length_take;
        pose proof (grow_file_length c (data a1 ++ drop (length (data a1))
                                          (grow_file c f))); lia).
      rewrite lookup_take_lt by done. unfold grow_file at 1.
      rewrite <- app_assoc. apply lookup_app_l. lia.
    - pose proof (grow_file_length c (data a1 ++ drop (length (data a1))
                                        (grow_file c f))) as Hg.
      rewrite lookup_app_r by (rewrite length_take; lia).
      rewrite length_take, Nat.min_l by lia.
      rewrite Hdata1. rewrite decide_False by lia.
      destruct (decide (i < Z.to_nat c)%nat).
      + rewrite !lookup_replicate_2 by lia. done.
      + rewrite (proj1 (lookup_replicate_None _ _ _)) by lia.
        by rewrite (proj1 (lookup_replicate_None _ _ _)) by lia. }
  rewrite Hd2 in Hk, Hctor2. clear d2 Hd2.
  assert (Hkn : k = length vs).
  { apply shrink_loop_sound in Hk as (Hkle & Hall & Hstop).
    apply (shrink_loop_unique (data a1) (Z.to_nat r)); try done; [lia| |].
    - intros i Hi. rewrite Hdata1. rewrite decide_False by lia.
      apply lookup_replicate_2. lia.
    - destruct vs as [|v0 vs'] eqn:Hvs0; [by left|]. right.
      rewrite <- Hvs0 in *.
      assert (Hlast : (length vs - 1 < length vs)%nat)
        by (rewrite Hvs0; cbn; lia).
      destruct (lookup_lt_is_Some_2 vs _ Hlast) as [x Hx].
      exists x. rewrite Hdata1. rewrite decide_True by lia.
      rewrite Nat.sub_0_r. split; [done|].
      rewrite Forall_lookup in Hvs. by apply (Hvs _ _ Hx). }
  subst k.
  set (b := {| m_size := Z.of_nat (length vs); m_mapping := _ |}) in Hctor2.
  exists a, fs1, a1, b. eexists. repeat split; try done.
  intros i v Hv.
  assert (Hwfb : well_formed b).
  { unfold well_formed, capacity, mapping_size. cbn. lia. }
  pose proof (lookup_lt_Some _ _ _ Hv) as Hi.
  destruct (at_in_range b (Z.of_nat i) Hwfb) as (x & Hx & ->); [cbn; lia|].
  f_equal. cbn in Hx. rewrite Nat2Z.id, Hdata1 in Hx.
  rewrite decide_True, Nat.sub_0_r in Hx by lia. congruence.
Qed.

(** C2, as the code has it.  With a mapping of 1000 elements granted:
    after ten values other than the empty one are appended to a
    file-backed vector of capacity 1000 and the vector is closed, a
    vector constructed on the same descriptor and capacity with an
    initial size between 10 and 1000 (the capacity, say) has
    [size() == 10] and [at(i)] returns the [i]-th value for [i] in 0..9.
    In general the file-backed constructor, on an open descriptor and with
    the mapping granted, grows the file to the capacity, keeps the slots
    below the initial size, fills [[size, capacity)] with the empty value
    and trims: the size it ends with is the initial one less the empty
    slots at its end. *)
Theorem reopen_with_initial_size_recovers_data reopen_size :
  1000 ≤ max_elems → 10 ≤ reopen_size ≤ 1000 →
  reopen_roundtrip reopen_size
  ∧ ∀ fd c sz (fs : gmap Z (list T)) f,
      fs !! fd = Some f → 0 < c ≤ max_elems → 0 ≤ sz ≤ c →
      ∃ b (k : nat),
        mmap_vector_base_fd fd c sz fs = Ok b (<[fd := grow_file c f]> fs)
        ∧ data b = take (Z.to_nat sz) (grow_file c f)
                   ++ replicate (Z.to_nat (c - sz)) empty_value
        ∧ size b = Z.of_nat k ∧ Z.of_nat k ≤ sz
        ∧ (∀ i : nat, Z.of_nat k ≤ Z.of_nat i < sz →
                      data b !! i = Some empty_value)
        ∧ (k = 0%nat
           ∨ ∃ x, data b !! (k - 1)%nat = Some x ∧ x ≠ empty_value).
Proof.
  intros Hmax Hr. split.
  - intros fd fs f vs Hfd Hlen Hvs.
    destruct (reopen_recovers fd 1000 reopen_size fs f vs)
      as (a & fs1 & a1 & b & fs2 & H1 & H2 & H3 & H4 & H5);
      try done; try (unfold SIZE_MAX; lia).
    exists a, fs1, a1, b, fs2. rewrite Hlen in H4. by repeat split.
  - intros fd c sz fs f Hfd Hc Hsz.
    destruct (mmap_vector_base_fd_eq fd c sz fs f Hfd Hc Hsz)
      as (k & Hk & Hctor).
    apply shrink_loop_sound in Hk as (Hle & Hall & Hstop).
    eexists _, k. split; [exact Hctor|].
    split; [done|]. split; [done|]. split; [lia|]. split; [|done].
    intros i Hi. apply Hall. lia.
Qed.

(** Reopening with initial size 0, the default, finds nothing. *)
Lemma reopen_with_size_0 fd c (fs fs' : gmap Z (list T)) b :
  mmap_vector_base_fd fd c 0 fs = Ok b fs' →
  size b = 0 ∧ ∀ (i : nat) x, data b !! i = Some x → x = empty_value.
Proof.
  intros Hctor.
  unfold mmap_vector_base_fd, mapping_file in Hctor.
  destruct (fs !! fd) as [f|] eqn:Hfd; [|done].
  unfold can_map in Hctor. case_bool_decide as Hc; [|done].
  case_bool_decide as Hc0; [|done].
  destruct (mmap_vector_base_fd_eq fd c 0 fs f Hfd Hc)
    as (k & Hk & Heq); [lia|].
  unfold mmap_vector_base_fd, mapping_file, can_map in Heq.
  rewrite Hfd in Heq. rewrite !bool_decide_true in Heq by done.
  rewrite Heq in Hctor. injection Hctor as <- <-.
  cbn in Hk. injection Hk as <-. split; [done|].
  intros i x. cbn. by intros [-> _]%lookup_replicate_1.
Qed.

(** *** [size <= capacity] where nothing wraps around *)

(** Goals that compare sizes with lengths of regions. *)
Local Ltac count_slots :=
  unfold well_formed, capacity, mapping_size, data in *; cbn in *;
  rewrite ?length_insert, ?length_app, ?length_replicate; lia.

(** On a platform whose largest mapping leaves room for one increment
    below [SIZE_MAX], an operation whose [resize] target does not wrap
    around keeps [size <= capacity], and its behaviour is defined. *)
Lemma exec_keeps_size_le_capacity o a :
  max_elems + mmap_vector_size_increment + 1 ≤ SIZE_MAX →
  well_formed a → capacity a ≤ max_elems →
  size_t_args o → no_overflow o →
  ∃ a', state_after (exec o a) = Some a'
        ∧ well_formed a' ∧ capacity a' ≤ max_elems.
Proof.
  intros Hplat (Hpos & Hle & Hmax) Hcap Hargs Hno.
  assert (Hinc : mmap_vector_size_increment = 1048576) by done.
  destruct o as [v|n|n| | |n]; cbn [exec]; cbn in Hargs, Hno.
  - rewrite push_back_unfold.
    rewrite (wrap_size_small (m_size a + 1)) by lia.
    rewrite resize_eq. cbn zeta.
    rewrite (wrap_size_small (m_size a + 1 + _)) by lia.
    repeat case_decide.
    + cbn [m_size set_size].
      replace (m_size a + 1 - 1) with (m_size a) by lia.
      rewrite wrap_size_small by lia.
      rewrite store_in_range by count_slots.
      eexists. split; [done|]. count_slots.
    + cbn [m_size set_size].
      replace (m_size a + 1 - 1) with (m_size a) by lia.
      rewrite wrap_size_small by lia.
      rewrite store_in_range by count_slots.
      eexists. split; [done|]. count_slots.
    + eexists. by split.
  - rewrite reserve_eq.
    repeat case_decide; eexists; (split; [done|]); try done.
    count_slots.
  - rewrite resize_eq. cbn zeta.
    rewrite (wrap_size_small (n + _)) by lia.
    repeat case_decide; eexists; (split; [done|]); try done; count_slots.
  - eexists. split; [done|]. count_slots.
  - destruct (shrink_loop_spec (data a) (Z.to_nat (m_size a)))
      as (k & Hk & Hkle & _); [count_slots|].
    unfold shrink_to_fit. rewrite Hk. eexists. split; [done|]. count_slots.
  - unfold bind. rewrite at_eq. case_decide.
    + eexists. by split.
    + destruct (at_in_range a n) as (x & Hx & _); [done|lia|].
      rewrite decide_True by lia. rewrite Hx. eexists. by split.
Qed.

(** Both constructors establish it. *)
Lemma constructed_well_formed a (fs fs' : gmap Z (list T)) :
  max_elems ≤ SIZE_MAX →
  ((∃ c, mmap_vector_base_anon c fs = Ok a fs')
   ∨ (∃ fd c sz, 0 ≤ sz ∧ mmap_vector_base_fd fd c sz fs = Ok a fs')) →
  well_formed a ∧ capacity a ≤ max_elems.
Proof.
  intros Hplat [[c Hctor]|(fd & c & sz & Hsz & Hctor)].
  - rewrite mmap_vector_base_anon_eq in Hctor.
    case_decide; [|done]. injection Hctor as <- <-.
    unfold well_formed, capacity, mapping_size. cbn.
    rewrite length_replicate. lia.
  - unfold mmap_vector_base_fd, mapping_file in Hctor.
    destruct (fs !! fd) as [f|] eqn:Hfd; [|done].
    unfold can_map in Hctor. case_bool_decide as Hc; [|done].
    case_bool_decide as Hle; [|done].
    destruct (mmap_vector_base_fd_eq fd c sz fs f Hfd Hc)
      as (k & Hk & Heq); [lia|].
    unfold mmap_vector_base_fd, mapping_file, can_map in Heq.
    rewrite Hfd in Heq. rewrite !bool_decide_true in Heq by done.
    rewrite Heq in Hctor. injection Hctor as <- <-.
    apply shrink_loop_sound in Hk as (Hkle & _).
    pose proof (grow_file_length c f).
    unfold well_formed, capacity, mapping_size. cbn.
    rewrite length_app, length_take, length_replicate. lia.
Qed.

Lemma exec_all_keeps_size_le_capacity os :
  max_elems + mmap_vector_size_increment + 1 ≤ SIZE_MAX →
  Forall size_t_args os → Forall no_overflow os →
  ∀ a, well_formed a → capacity a ≤ max_elems →
       ∃ a', exec_all os a = Some a'
             ∧ well_formed a' ∧ capacity a' ≤ max_elems.
Proof.
  intros Hplat Hargs Hno.
  induction os as [|o os IH]; intros a Hwf Hcap; cbn.
  - by exists a.
  - apply Forall_cons in Hargs as [Harg Hargs].
    apply Forall_cons in Hno as [Hn Hno].
    destruct (exec_keeps_size_le_capacity o a) as (a1 & -> & Hwf1 & Hcap1);
      try done.
    by apply IH.
Qed.

End VectorClaims.

(** ** Concrete vectors of [uint64_t] *)

Lemma sample_vector_well_formed : well_formed sample_vector.
Proof. by vm_compute. Qed.

Lemma full_vector_well_formed : well_formed full_vector.
Proof. by vm_compute. Qed.

(** C1. [resize(new_size)] computes [new_size + mmap_vector_size_increment]
    in [size_t]; when that sum wraps around to no more than the capacity,
    [reserve] has nothing to do and [m_size] is set all the same: a vector
    constructed with capacity [c] answers [size() == new_size] and
    [capacity() == c < new_size]. *)
Theorem resize_wraps_and_breaks_size_le_capacity
    {T : Type} `{!Element T, !Platform T} (c n : Z) (fs : gmap Z (list T)) :
  0 < c ≤ max_elems → c < n ≤ SIZE_MAX →
  SIZE_MAX < n + mmap_vector_size_increment →
  n + mmap_vector_size_increment - 2 ^ 64 ≤ c →
  ∃ a a', mmap_vector_base_anon c fs = Ok a fs
          ∧ size a = 0 ∧ capacity a = c
          ∧ resize n a = Ok tt a'
          ∧ size a' = n ∧ capacity a' = c
          ∧ capacity a' < size a'.
Proof.
  intros Hc Hn Hwrap Hfit.
  rewrite mmap_vector_base_anon_eq. rewrite decide_True by done.
  eexists. eexists. split; [done|].
  assert (Hcap : ∀ sz,
             capacity {| m_size := sz;
                         m_mapping := {| cells := replicate (Z.to_nat c)
                                                            empty_value;
                                         backing := None |} |} = c).
  { intros sz. unfold capacity, mapping_size. cbn.
    rewrite length_replicate. lia. }
  split; [done|]. split; [apply Hcap|].
  rewrite resize_eq. cbn zeta. rewrite Hcap.
  assert (Hw : wrap_size (n + mmap_vector_size_increment)
               = n + mmap_vector_size_increment - 2 ^ 64).
  { unfold wrap_size, SIZE_MAX, mmap_vector_size_increment in *.
    symmetry. apply (Z.mod_unique _ _ 1); lia. }
  rewrite Hw. rewrite decide_True by lia.
  split; [done|]. split; [done|]. split; [apply Hcap|].
  unfold size, capacity, mapping_size. cbn. rewrite length_replicate. lia.
Qed.

(** A vector constructed with the default capacity and resized to
    [SIZE_MAX]. *)
Lemma resize_wraps_and_breaks_size_le_capacity_witness :
  (0 < mmap_vector_size_increment ≤ max_elems
   ∧ mmap_vector_size_increment < SIZE_MAX ≤ SIZE_MAX
   ∧ SIZE_MAX < SIZE_MAX + mmap_vector_size_increment
   ∧ SIZE_MAX + mmap_vector_size_increment - 2 ^ 64
     ≤ mmap_vector_size_increment)
  ∧ ∃ a a' : mmap_vector_base Z,
      mmap_vector_base_anon mmap_vector_size_increment ∅ = Ok a ∅
      ∧ size a = 0 ∧ capacity a = mmap_vector_size_increment
      ∧ resize SIZE_MAX a = Ok tt a'
      ∧ size a' = SIZE_MAX ∧ capacity a' = mmap_vector_size_increment
      ∧ capacity a' < size a'.
Proof.
  assert (H : 0 < mmap_vector_size_increment ≤ max_elems
              ∧ mmap_vector_size_increment < SIZE_MAX ≤ SIZE_MAX
              ∧ SIZE_MAX < SIZE_MAX + mmap_vector_size_increment
              ∧ SIZE_MAX + mmap_vector_size_increment - 2 ^ 64
                ≤ mmap_vector_size_increment)
    by (vm_compute; intuition discriminate).
  split; [exact H|].
  destruct H as (H1 & H2 & H3 & H4).
  exact (resize_wraps_and_breaks_size_le_capacity
           mmap_vector_size_increment SIZE_MAX ∅ H1 H2 H3 H4).
Defined.

(** C2, as stated: constructing the second vector "against the same
    descriptor and capacity" leaves the initial size at its default, 0, and
    then the constructor overwrites every slot with the empty value:
    [size()] is 0, not 10. *)
Lemma reopen_with_default_size_finds_nothing :
  ¬ reopen_roundtrip (T := Z) 0.
Proof.
  intros Hclaim.
  destruct (Hclaim 3 {[3 := []]} [] [1; 2; 3; 4; 5; 6; 7; 8; 9; 10])
    as (a & fs1 & a1 & b & fs2 & _ & _ & Hreopen & Hsize & _).
  - done.
  - done.
  - repeat (constructor; [by vm_compute|]). constructor.
  - apply reopen_with_size_0 in Hreopen as [Hzero _].
    rewrite Hzero in Hsize. discriminate.
Qed.

Lemma reopen_with_initial_size_recovers_data_witness :
  (1000 ≤ max_elems (T := Z) ∧ 10 ≤ 1000 ≤ 1000)
  ∧ reopen_roundtrip (T := Z) 1000.
Proof.
  assert (H : 1000 ≤ max_elems (T := Z) ∧ 10 ≤ 1000 ≤ 1000)
    by (vm_compute; intuition discriminate).
  split; [exact H|].
  exact (proj1 (reopen_with_initial_size_recovers_data 1000
                  (proj1 H) (proj2 H))).
Defined.

Lemma shrink_to_fit_trims_trailing_empty_witness :
  well_formed (set_size 4 sample_vector)
  ∧ shrink_to_fit (set_size 4 sample_vector)
    = Ok tt (set_size 2 sample_vector).
Proof.
  assert (Hwf : well_formed (set_size 4 sample_vector)) by by vm_compute.
  split; [exact Hwf|].
  destruct (shrink_to_fit_trims_trailing_empty (set_size 4 sample_vector) Hwf)
    as [(k & Hrun & _ & _ & _ & Huniq) _].
  rewrite Hrun. rewrite <- (Huniq 2%nat); [done|by vm_compute|..].
  - intros i Hi. cbn in Hi.
    destruct i as [|[|[|[|i]]]]; try done; lia.
  - right. by exists 8.
Defined.

Lemma push_back_secures_capacity_then_writes_witness :
  (well_formed full_vector
   ∧ m_size full_vector + 1 + 1048576 ≤ SIZE_MAX)
  ∧ ∃ a1 a2,
      resize 5 full_vector = Ok tt a1
      ∧ capacity a1 = 1048581
      ∧ push_back 11 full_vector = Ok tt a2
      ∧ capacity a2 = 1048581
      ∧ size a2 = 5
      ∧ data a2 !! 4%nat = Some 11
      ∧ data a2 !! 3%nat = Some 10.
Proof.
  assert (H : well_formed full_vector
              ∧ m_size full_vector + 1 + 1048576
                ≤ SIZE_MAX) by by vm_compute.
  split; [exact H|].
  destruct (push_back_secures_capacity_then_writes full_vector 11
              (proj1 H) (proj2 H)) as [Hgrow _].
  clear H.
  destruct Hgrow as (a1 & a2 & H1 & H2 & _ & _ & H5 & H6 & H7 & H8 & H9).
  { intros _. by vm_compute. }
  exists a1, a2.
  split; [exact H1|]. split; [exact H2|]. split; [exact H5|].
  split; [exact H6|]. split; [exact H7|]. split; [exact H8|].
  rewrite (H9 3%nat); reflexivity.
Defined.

Lemma reserve_grows_exactly_and_fills_witness :
  (capacity sample_vector < 6 ∧ 6 ≤ max_elems (T := Z))
  ∧ ∃ a', reserve 6 sample_vector = Ok tt a'
          ∧ capacity a' = 6 ∧ size a' = 2
          ∧ data a' !! 1%nat = Some 8
          ∧ data a' !! 5%nat = Some SIZE_MAX.
Proof.
  assert (H : capacity sample_vector < 6 ∧ 6 ≤ max_elems (T := Z))
    by by vm_compute.
  split; [exact H|].
  destruct (reserve_grows_exactly_and_fills sample_vector 6)
    as (_ & Hgrow & _).
  destruct (Hgrow (proj1 H) (proj2 H))
    as (a' & H1 & H2 & H3 & _ & _ & H6 & H7).
  exists a'. repeat split; try done.
  - by rewrite (H6 1%nat).
  - by rewrite (H7 5%nat).
Defined.

Lemma failed_growth_leaves_array_untouched_witness :
  (capacity full_vector < 5
   ∧ capacity full_vector < wrap_size (5 + mmap_vector_size_increment))
  ∧ push_back (Platform0 := {| fresh := λ _, 0; max_elems := 1000 |})
      11 full_vector
    = Throw system_error full_vector.
Proof.
  assert (H : capacity full_vector < 5
              ∧ capacity full_vector
                < wrap_size (5 + mmap_vector_size_increment))
    by by vm_compute.
  split; [exact H|].
  destruct (failed_growth_leaves_array_untouched
              (Platform0 := {| fresh := λ _, 0; max_elems := 1000 |})
              full_vector) as (_ & _ & Hpush & _).
  by apply (Hpush 11 (proj1 H) (proj2 H)).
Defined.


(** C5, as stated: [clear()] sets [size] to 0 and refills nothing, so the
    slot just written is at an index in [[size, capacity)] and is not
    empty. *)
Lemma clear_leaves_a_written_slot_behind :
  ¬ (∀ (os : list (op Z)) a0 a,
        mmap_vector_base_anon 4 ∅ = Ok a0 ∅ →
        exec_all os a0 = Some a → tail_empty a).
Proof.
  intros Hclaim.
  specialize (Hclaim [OpPushBack 7; OpClear] _ _ eq_refl eq_refl 0%nat).
  cbn in Hclaim. discriminate Hclaim. by vm_compute.
Qed.

Lemma tail_empty_unless_size_is_lowered_witness :
  (well_formed sample_vector ∧ size_t_args (OpReserve 6 : op Z)
   ∧ tail_empty sample_vector ∧ ¬ lowers_size (OpReserve 6) sample_vector)
  ∧ ∃ a', state_after (exec (OpReserve 6) sample_vector) = Some a'
          ∧ tail_empty a'.
Proof.
  assert (Htail : tail_empty sample_vector).
  { intros i Hi. unfold capacity, mapping_size in Hi. cbn in Hi.
    destruct i as [|[|[|[|i]]]]; try reflexivity; lia. }
  assert (H : well_formed sample_vector ∧ size_t_args (OpReserve 6 : op Z)
              ∧ ¬ lowers_size (OpReserve 6) sample_vector).
  { split; [by vm_compute|]. split; [by vm_compute|]. by intros []. }
  destruct H as (H1 & H2 & H4).
  split; [done|].
  destruct (tail_empty_unless_size_is_lowered (T := Z)) as (_ & _ & Hstep & _).
  eexists. split; [reflexivity|].
  by apply (Hstep (OpReserve 6) sample_vector).
Defined.

(** ** [remap]: the two strategies *)

Section RemapClaims.

Context {T : Type} `{!Platform T}.

Lemma copy_elements_length (src dst : list T) i count :
  length (copy_elements src dst i count) = length dst.
Proof.
  revert dst i. induction count as [|count IH]; intros dst i; cbn; [done|].
  destruct (src !! i); [|done]. by rewrite IH, length_insert.
Qed.

Lemma copy_elements_lookup (src dst : list T) i count j :
  (i + count ≤ length src)%nat → (i + count ≤ length dst)%nat →
  copy_elements src dst i count !! j
  = if decide (i ≤ j < i + count)%nat then src !! j else dst !! j.
Proof.
  revert dst i. induction count as [|count IH]; intros dst i Hsrc Hdst; cbn.
  - by rewrite decide_False by lia.
  - destruct (lookup_lt_is_Some_2 src i) as [x Hx]; [lia|]. rewrite Hx.
    rewrite IH by (rewrite ?length_insert; lia).
    destruct (decide (j = i)) as [->|Hne].
    + rewrite decide_False by lia. rewrite decide_True by lia.
      rewrite Hx. apply list_lookup_insert_eq. lia.
    + rewrite list_lookup_insert_ne by done.
      repeat case_decide; (done || lia).
Qed.

Lemma remap_granted how (base : list T) old_n new_n :
  Z.of_nat (length base) = old_n → 0 < new_n ≤ max_elems →
  ∃ region,
    remap how base old_n new_n = inr region
    ∧ Z.of_nat (length region) = new_n
    ∧ ∀ i : nat, Z.of_nat i < Z.min old_n new_n → region !! i = base !! i.
Proof.
  intros Hold Hnew. destruct how; cbn [remap].
  - unfold remap_in_place. rewrite bool_decide_true by done.
    eexists. split; [done|]. split.
    + rewrite length_app, length_take, length_fmap, length_seq. lia.
    + intros i Hi. rewrite lookup_app_l by (rewrite length_take; lia).
      apply lookup_take_lt. lia.
  - unfold remap_copy, typed_mmap_map. rewrite bool_decide_true by done.
    eexists. split; [done|]. split.
    + rewrite copy_elements_length, length_fmap, length_seq. lia.
    + intros i Hi.
      rewrite copy_elements_lookup
        by (rewrite ?length_fmap, ?length_seq; lia).
      by rewrite decide_True by lia.
Qed.

(** C9.  For a region [base] of [old_n] elements: when a mapping of
    [new_n] elements is granted, [remap] ends normally under either
    strategy with a region of [new_n] elements whose first
    [min(old_n, new_n)] elements are those of [base], so that the two
    strategies agree on them; when it is not granted, both fail with the
    same error.  In particular, after growing a region holding
    [v0..v_{k-1}] from [k] to [k * 10] elements, reading slot [i < k]
    gives [v_i]. *)
Theorem remap_preserves_the_common_prefix (base : list T) (old_n new_n : Z) :
  Z.of_nat (length base) = old_n →
  (0 < new_n ≤ max_elems →
   (∀ how, ∃ region,
       remap how base old_n new_n = inr region
       ∧ Z.of_nat (length region) = new_n
       ∧ ∀ i : nat, Z.of_nat i < Z.min old_n new_n →
                    region !! i = base !! i)
   ∧ (∀ r1 r2,
         remap InPlaceExtension base old_n new_n = inr r1 →
         remap UnmapMapCopy base old_n new_n = inr r2 →
         take (Z.to_nat (Z.min old_n new_n)) r1
         = take (Z.to_nat (Z.min old_n new_n)) r2))
  ∧ (¬ (0 < new_n ≤ max_elems) →
     ∀ how, remap how base old_n new_n = inl system_error)
  ∧ (0 < old_n → new_n = old_n * 10 → new_n ≤ max_elems →
     ∀ how, ∃ region,
       remap how base old_n new_n = inr region
       ∧ ∀ (i : nat) v, base !! i = Some v → region !! i = Some v).
Proof.
  intros Hold. split; [|split].
  - intros Hnew. split; [intros how; by apply remap_granted|].
    intros r1 r2 H1 H2.
    destruct (remap_granted InPlaceExtension base old_n new_n Hold Hnew)
      as (r1' & H1' & Hlen1 & Hpre1).
    destruct (remap_granted UnmapMapCopy base old_n new_n Hold Hnew)
      as (r2' & H2' & Hlen2 & Hpre2).
    rewrite H1 in H1'. rewrite H2 in H2'.
    injection H1' as <-. injection H2' as <-.
    apply list_eq. intros i.
    destruct (decide (i < Z.to_nat (Z.min old_n new_n))%nat).
    + rewrite !lookup_take_lt by done.
      rewrite Hpre1, Hpre2 by lia. done.
    + by rewrite !lookup_take_ge by lia.
  - intros Hno how. destruct how; cbn.
    + unfold remap_in_place. by rewrite bool_decide_false by done.
    + unfold remap_copy, typed_mmap_map.
      by rewrite bool_decide_false by done.
  - intros Hpos -> Hmax how.
    destruct (remap_granted how base old_n (old_n * 10) Hold)
      as (region & Hrun & _ & Hpre); [lia|].
    exists region. split; [done|]. intros i v Hv.
    rewrite Hpre; [done|]. apply lookup_lt_Some in Hv. lia.
Qed.

End RemapClaims.

(** The test's region: ten [uint64_t], three of them written, grown to
    1000. *)
Lemma remap_preserves_the_common_prefix_witness :
  (Z.of_nat (length [4; 0; 0; 9; 0; 0; 0; 0; 0; 25]) = 10
   ∧ 0 < 1000 ≤ max_elems (T := Z))
  ∧ ∀ how, ∃ region,
      remap how [4; 0; 0; 9; 0; 0; 0; 0; 0; 25] 10 1000 = inr region
      ∧ region !! 0%nat = Some 4
      ∧ region !! 3%nat = Some 9
      ∧ region !! 9%nat = Some 25.
Proof.
  assert (H : Z.of_nat (length [4; 0; 0; 9; 0; 0; 0; 0; 0; 25]) = 10
              ∧ 0 < 1000 ≤ max_elems (T := Z)) by by vm_compute.
  split; [exact H|]. intros how.
  destruct (remap_preserves_the_common_prefix
              [4; 0; 0; 9; 0; 0; 0; 0; 0; 25] 10 1000 (proj1 H))
    as [Hgrant _].
  destruct (Hgrant (proj2 H)) as [Hall _].
  destruct (Hall how) as (region & Hrun & _ & Hpre).
  exists region. split; [exact Hrun|].
  split; [|split]; rewrite Hpre; reflexivity.
Defined.

(** ** The string table *)

Section StringFacts.

Context `{!StringCapacity}.

Lemma string_drop_app (a b : string) :
  string_drop (String.length a) (a +:+ b) = b.
Proof. induction a as [|c a IH]; [done|]. exact IH. Qed.

Lemma until_nul_c_string (s rest : string) :
  c_string s → until_nul (s +:+ String NUL rest) = s.
Proof.
  induction s as [|c s IH]; cbn.
  - intros _. by repeat case_decide.
  - intros [Hc Hs].
    change (String c s +:+ String NUL rest)
      with (String c (s +:+ String NUL rest)).
    cbn [until_nul]. rewrite decide_False by done. by rewrite IH.
Qed.

Lemma deref_new_text (chunk_size : Z) (front s : string) rest :
  c_string s →
  deref {| m_chunk_size := chunk_size;
           m_chunks := (front +:+ s +:+ String NUL EmptyString) :: rest |}
        (length rest, String.length front)
  = s.
Proof.
  intros Hs. unfold deref. cbn [m_chunks fst snd].
  rewrite reverse_cons.
  rewrite lookup_app_r by (rewrite length_reverse; lia).
  rewrite length_reverse, Nat.sub_diag. cbn [lookup list_lookup].
  by rewrite string_drop_app, until_nul_c_string.
Qed.

(** The store hands back a pointer to a copy of the text. *)
Lemma StringStore_add_ok (s : string) (st : StringStore) :
  m_chunks st ≠ [] → c_string s →
  Z.of_nat (String.length s) + 1 ≤ m_chunk_size st →
  ∃ p st', StringStore_add s st = Ok p st'
           ∧ deref st' p = s
           ∧ m_chunks st' ≠ []
           ∧ m_chunk_size st' = m_chunk_size st.
Proof.
  intros Hne Hs Hfit. unfold StringStore_add.
  rewrite bool_decide_true by done.
  destruct (m_chunks st) as [|front rest] eqn:Hchunks; [done|].
  case_bool_decide as Hfull.
  - cbn [add_chunk m_chunks m_chunk_size]. rewrite Hchunks.
    eexists _, _. split; [done|]. split; [|done].
    by apply (deref_new_text _ EmptyString).
  - rewrite Hchunks.
    eexists _, _. split; [done|]. split; [|done].
    by apply deref_new_text.
Qed.

(** An [add] the front chunk has room for, by the chunk size already. *)
Lemma StringStore_add_room (s : string) (st : StringStore) front rest :
  m_chunks st = front :: rest →
  Z.of_nat (String.length front) + (Z.of_nat (String.length s) + 1)
  ≤ m_chunk_size st →
  StringStore_add s st
  = Ok (length rest, String.length front)
       {| m_chunk_size := m_chunk_size st;
          m_chunks := (front +:+ s +:+ String NUL EmptyString) :: rest |}.
Proof.
  intros Hchunks Hfit. unfold StringStore_add.
  pose proof (reserved_capacity_ge (m_chunk_size st)) as Hcap.
  rewrite bool_decide_true by lia. rewrite Hchunks.
  rewrite !bool_decide_false by (unfold chunk_capacity; lia).
  by rewrite Hchunks.
Qed.

Lemma StringTable_new_eq :
  StringTable_new
  = Some {| m_strings := {| m_chunk_size := 1024 * 1024;
                            m_chunks := [String NUL EmptyString] |};
            m_index := ∅; st_size := 0 |}.
Proof.
  unfold StringTable_new.
  by rewrite (StringStore_add_room EmptyString _ EmptyString []).
Qed.

End StringFacts.

Section TableFacts.

Context `{!StringCapacity}.

Variable max_entries : Z.

Lemma wrap_u32_small z : 0 ≤ z ≤ UINT32_MAX → wrap_u32 z = z.
Proof. unfold wrap_u32, UINT32_MAX. intros. apply Z.mod_small. lia. Qed.

Lemma StringTable_new_ok :
  ∃ t0, StringTable_new = Some t0 ∧ table_ok t0
        ∧ m_index t0 = ∅ ∧ st_size t0 = 0.
Proof.
  eexists. split; [exact StringTable_new_eq|]. split; [|done].
  repeat split; try done. by left.
Qed.

(** A text the index knows: its index is returned, nothing changes. *)
Lemma add_known t s i :
  m_index t !! s = Some i → 0 ≤ i ≤ UINT32_MAX →
  StringTable_add max_entries s t = Ok i t.
Proof.
  intros Hs Hi. unfold StringTable_add, bind, gets. rewrite Hs.
  unfold ret. by rewrite wrap_u32_small.
Qed.

(** A text the index does not know: it is copied to the store and given
    the next index, and only then is the count checked. *)
Lemma add_unknown t s :
  table_ok t → storable s → m_index t !! s = None →
  st_size t < UINT32_MAX →
  ∃ t', StringTable_add max_entries s t
        = (if decide (st_size t + 1 > max_entries)
           then Throw pbf_error t' else Ok (st_size t + 1) t')
        ∧ m_index t' = <[s := st_size t + 1]> (m_index t)
        ∧ st_size t' = st_size t + 1
        ∧ table_ok t'.
Proof.
  intros (Hchunks & Hcs & Hsize & Hrange & Hinj & Htop) [Hc Hfit] Hnew Hroom.
  destruct (StringStore_add_ok s (m_strings t))
    as (p & st' & Hadd & Hderef & Hchunks' & Hcs'); try done.
  { by rewrite Hcs. }
  assert (Hn : wrap_u32 (st_size t + 1) = st_size t + 1)
    by (apply wrap_u32_small; lia).
  eexists {| m_strings := st';
             m_index := <[s := st_size t + 1]> (m_index t);
             st_size := st_size t + 1 |}.
  split; [|split; [done|split; [done|]]].
  - unfold StringTable_add, bind, gets. rewrite Hnew.
    unfold store_add. rewrite Hadd.
    unfold pre_increment_size, index_assign. cbn.
    rewrite Hn, Hderef. unfold throw, ret.
    case_bool_decide; case_decide; done || lia.
  - unfold table_ok. cbn [m_strings m_index st_size].
    split; [done|]. split; [congruence|].
    split; [rewrite map_size_insert_None by done; lia|].
    split; [|split].
    + intros s1 i [[_ <-]|[_ Hold]]%lookup_insert_Some; [lia|].
      apply Hrange in Hold. lia.
    + intros s1 s2 i H1 H2.
      apply lookup_insert_Some in H1 as [[<- <-]|[Hne1 H1]];
        apply lookup_insert_Some in H2 as [[<- Hi]|[Hne2 H2]];
        try done.
      * apply Hrange in H2. lia.
      * apply Hrange in H1. lia.
      * by apply (Hinj s1 s2 i).
    + right. exists s. apply lookup_insert_eq.
Qed.

(** Adding the texts of [l] in turn, while the table has room for
    them. *)
Lemma add_all_spec (l : list string) :
  ∀ t, table_ok t → Forall storable l →
       max_entries < UINT32_MAX →
       Z.of_nat (base.size (dom (m_index t) ∪ list_to_set l : gset string))
       ≤ max_entries →
       ∃ rs t',
         add_all max_entries l t = Some (rs, t')
         ∧ table_ok t'
         ∧ dom (m_index t') = dom (m_index t) ∪ list_to_set l
         ∧ m_index t ⊆ m_index t'
         ∧ Forall2 (λ s r, ∃ i, r = Some i ∧ m_index t' !! s = Some i) l rs.
Proof.
  induction l as [|s l IH]; intros t Hok Hl Hmax Hroom; cbn [add_all].
  - exists [], t. split; [done|]. split; [done|].
    split; [set_solver|]. split; [done|constructor].
  - apply Forall_cons in Hl as [Hs Hl].
    pose proof Hok as (_ & _ & Hsize & Hrange & _).
    assert (Hst : st_size t ≤ max_entries).
    { etrans; [|exact Hroom]. rewrite Hsize, <- size_dom.
      apply inj_le, subseteq_size. set_solver. }
    destruct (m_index t !! s) as [i|] eqn:Hlook.
    + rewrite (add_known t s i) by (done || (apply Hrange in Hlook; lia)).
      destruct (IH t) as (rs & t' & Hrun & Hok' & Hdom & Hsub & Hrs);
        try done.
      { etrans; [|exact Hroom]. apply inj_le, subseteq_size. set_solver. }
      rewrite Hrun. exists (Some i :: rs), t'.
      split; [done|]. split; [done|]. split; [|split; [done|]].
      * rewrite Hdom. apply elem_of_dom_2 in Hlook. set_solver.
      * constructor; [|done]. exists i. split; [done|].
        by apply (lookup_weaken _ _ _ _ Hlook).
    + assert (Hcount : st_size t + 1 ≤ max_entries).
      { etrans; [|exact Hroom]. rewrite Hsize, <- size_dom.
        apply not_elem_of_dom in Hlook.
        replace (Z.of_nat (base.size (dom (m_index t))) + 1)
          with (Z.of_nat (base.size ({[s]} ∪ dom (m_index t))))
          by (rewrite size_union, size_singleton by set_solver; lia).
        apply inj_le, subseteq_size. set_solver. }
      destruct (add_unknown t s) as (t1 & Hadd & Hidx & Hsz1 & Hok1);
        try done; [lia|].
      rewrite decide_False in Hadd by lia. rewrite Hadd.
      destruct (IH t1) as (rs & t' & Hrun & Hok' & Hdom & Hsub & Hrs);
        try done.
      { rewrite Hidx, dom_insert_L.
        etrans; [|exact Hroom]. apply inj_le, subseteq_size. set_solver. }
      rewrite Hrun. exists (Some (st_size t + 1) :: rs), t'.
      assert (Hsub1 : m_index t ⊆ m_index t1)
        by (rewrite Hidx; by apply insert_subseteq).
      split; [done|]. split; [done|]. split; [|split].
      * rewrite Hdom, Hidx, dom_insert_L. set_solver.
      * by etrans.
      * constructor; [|done]. exists (st_size t + 1). split; [done|].
        apply (lookup_weaken (m_index t1)); [|done].
        rewrite Hidx. apply lookup_insert_eq.
Qed.

End TableFacts.

Section NumeralFacts.

Lemma numeral_not_empty p : numeral p ≠ EmptyString.
Proof. by destruct p. Qed.

Lemma numeral_inj p q : numeral p = numeral q → p = q.
Proof.
  revert q. induction p as [p IH|p IH|]; intros [q|q|] Heq; cbn in Heq;
    try discriminate; try done; injection Heq as Heq.
  - f_equal. by apply IH.
  - by apply numeral_not_empty in Heq.
  - f_equal. by apply IH.
  - symmetry in Heq. by apply numeral_not_empty in Heq.
Qed.

Lemma numeral_c_string p : c_string (numeral p).
Proof. induction p; cbn; repeat split; done. Qed.

Lemma numeral_length p (k : nat) :
  Z.pos p < 2 ^ Z.of_nat k → (String.length (numeral p) ≤ k)%nat.
Proof.
  revert k. induction p as [p IH|p IH|]; intros [|k]; cbn [numeral String.length];
    rewrite ?Nat2Z.inj_succ, ?Z.pow_succ_r, ?Z.pow_0_r by lia;
    try lia.
  - rewrite Pos2Z.inj_xI. intros Hlt. apply le_n_S, IH. lia.
  - rewrite Pos2Z.inj_xO. intros Hlt. apply le_n_S, IH. lia.
Qed.

Lemma numeral_storable (j : nat) :
  Z.of_nat j < 2 ^ 32 → storable (numeral (Pos.of_succ_nat j)).
Proof.
  intros Hj. split; [apply numeral_c_string|].
  pose proof (numeral_length (Pos.of_succ_nat j) 33) as Hlen.
  rewrite Zpos_P_of_succ_nat in Hlen.
  assert (H33 : 2 ^ Z.of_nat 33 = 2 * 2 ^ 32) by done.
  assert (H32 : 2 ^ 32 = 4294967296) by done.
  lia.
Qed.

Lemma numerals_storable (n : nat) :
  Z.of_nat n ≤ 2 ^ 32 → Forall storable (numerals n).
Proof.
  intros Hn. unfold numerals. apply Forall_fmap, Forall_forall.
  intros j [_ Hj]%elem_of_seq. apply numeral_storable. lia.
Qed.

Lemma numerals_NoDup (n : nat) : NoDup (numerals n).
Proof.
  unfold numerals. apply NoDup_fmap_2_strong; [|apply NoDup_seq].
  intros i j _ _ Heq%numeral_inj. by apply SuccNat2Pos.inj.
Qed.

Lemma numerals_fresh (n : nat) : numeral (Pos.of_succ_nat n) ∉ numerals n.
Proof.
  unfold numerals. intros (j & Heq%numeral_inj & [_ Hj]%elem_of_seq)%list_elem_of_fmap.
  apply SuccNat2Pos.inj in Heq. lia.
Qed.

Lemma numerals_count (n : nat) :
  base.size (list_to_set (numerals n) : gset string) = n.
Proof.
  rewrite size_list_to_set by apply numerals_NoDup.
  unfold numerals. by rewrite length_fmap, length_seq.
Qed.

End NumeralFacts.

Section TableClaims.

Context `{!StringCapacity}.

Variable max_entries : Z.

(** A table built by adding what fits: what [add_all_spec] says, from the
    constructor on. *)
Lemma built_table (l : list string) :
  max_entries < UINT32_MAX → Forall storable l →
  Z.of_nat (base.size (list_to_set l : gset string)) ≤ max_entries →
  ∃ t0 rs t,
    StringTable_new = Some t0
    ∧ add_all max_entries l t0 = Some (rs, t)
    ∧ table_ok t
    ∧ dom (m_index t) = list_to_set l
    ∧ Forall2 (λ s r, ∃ i, r = Some i ∧ m_index t !! s = Some i) l rs.
Proof.
  intros Hmax Hl Hroom.
  destruct StringTable_new_ok as (t0 & Hnew & Hok0 & Hidx0 & Hsz0).
  destruct (add_all_spec max_entries l t0)
    as (rs & t & Hrun & Hok & Hdom & _ & Hrs); try done.
  { by rewrite Hidx0, dom_empty_L, (left_id_L ∅ (∪)). }
  exists t0, rs, t. repeat (split; [done|]).
  split; [|done].
  by rewrite Hdom, Hidx0, dom_empty_L, (left_id_L ∅ (∪)).
Qed.

(** With [max_entries] texts in the table, the next new one is recorded
    and then refused. *)
Lemma full_table_throws (n : nat) :
  0 ≤ max_entries < UINT32_MAX → Z.of_nat n = max_entries →
  ∃ t0 rs t t',
    StringTable_new = Some t0
    ∧ add_all max_entries (numerals n) t0 = Some (rs, t)
    ∧ StringTable_add max_entries (numeral (Pos.of_succ_nat n)) t
      = Throw pbf_error t'.
Proof.
  intros Hmax Hn.
  assert (H32 : UINT32_MAX = 2 ^ 32 - 1) by done.
  destruct (built_table (numerals n))
    as (t0 & rs & t & Hnew & Hrun & Hok & Hdom & _).
  { lia. }
  { apply numerals_storable. lia. }
  { rewrite numerals_count. lia. }
  pose proof Hok as (_ & _ & Hsize & _).
  rewrite <- size_dom, Hdom, numerals_count in Hsize.
  destruct (add_unknown max_entries t (numeral (Pos.of_succ_nat n)))
    as (t' & Hadd & _); try done.
  { apply numeral_storable. lia. }
  { apply not_elem_of_dom. rewrite Hdom, elem_of_list_to_set.
    apply numerals_fresh. }
  { lia. }
  rewrite decide_True in Hadd by lia.
  by exists t0, rs, t, t'.
Qed.

Lemma full_table_refutes (n : nat) :
  0 ≤ max_entries < UINT32_MAX → Z.of_nat n = max_entries →
  ¬ add_returns_an_index max_entries.
Proof.
  intros Hmax Hn Hclaim.
  assert (H32 : UINT32_MAX = 2 ^ 32 - 1) by done.
  destruct (full_table_throws n Hmax Hn)
    as (t0 & rs & t & t' & Hnew & Hrun & Hthrow).
  destruct (Hclaim (numerals n) (numeral (Pos.of_succ_nat n)) t0 rs t)
    as (i & t'' & Hret); try done.
  - apply numerals_storable. lia.
  - apply numeral_storable. lia.
  - apply numerals_fresh.
  - rewrite Hthrow in Hret. discriminate.
Qed.

End TableClaims.

(** C10, as the code has it.  Let the texts of [l] be added to a new table
    that has room for them (no more than [max_entries] distinct ones).
    Every call returns.  Adding a text again that is in [l] returns what
    the call that added it returned, hence what the first such call
    returned, and leaves the table, [size()] included, as it is; different
    texts have different indices; [size()] is one more than the number of
    distinct texts added.  Adding a text that is not in [l], with fewer
    than [max_entries] texts in the table, returns [m_size + 1]: larger
    than every index returned so far, and one more than an index returned
    before if anything was added; [size()] goes up by one.  With
    [max_entries] texts in the table, such a call throws [pbf_error]. *)
Theorem string_table_add_deduplicates (max_entries : Z) (l : list string) :
  0 ≤ max_entries < UINT32_MAX → Forall storable l →
  Z.of_nat (base.size (list_to_set l : gset string)) ≤ max_entries →
  ∃ t0 rs t,
    StringTable_new = Some t0
    ∧ add_all max_entries l t0 = Some (rs, t)
    ∧ StringTable_size t
      = Z.of_nat (base.size (list_to_set l : gset string)) + 1
    ∧ (∀ (j : nat) s, l !! j = Some s →
         ∃ i, rs !! j = Some (Some i)
              ∧ StringTable_add max_entries s t = Ok i t)
    ∧ (∀ (j k : nat) s s' i,
          l !! j = Some s → l !! k = Some s' →
          rs !! j = Some (Some i) → rs !! k = Some (Some i) → s = s')
    ∧ (∀ s, storable s → s ∉ l →
         (∀ (j : nat) i, rs !! j = Some (Some i) → i < st_size t + 1)
         ∧ (l ≠ [] → ∃ j : nat, rs !! j = Some (Some (st_size t)))
         ∧ ∃ t',
             if decide (Z.of_nat (base.size (list_to_set l : gset string))
                        < max_entries)
             then StringTable_add max_entries s t = Ok (st_size t + 1) t'
                  ∧ StringTable_size t' = StringTable_size t + 1
             else StringTable_add max_entries s t = Throw pbf_error t').
Proof.
  intros Hmax Hl Hroom.
  destruct (built_table max_entries l)
    as (t0 & rs & t & Hnew & Hrun & Hok & Hdom & Hrs); try done; [lia|].
  pose proof Hok as (_ & _ & Hsize & Hrange & Hinj & Htop).
  assert (Hcount : st_size t
                   = Z.of_nat (base.size (list_to_set l : gset string)))
    by by rewrite <- Hdom, size_dom.
  assert (Hret : ∀ (j : nat) s i,
             l !! j = Some s → rs !! j = Some (Some i) →
             m_index t !! s = Some i).
  { intros j s i Hj Hi.
    destruct (Forall2_lookup_l _ _ _ _ _ Hrs Hj) as (r & Hr & i' & -> & Hidx).
    congruence. }
  exists t0, rs, t. split; [done|]. split; [done|].
  split; [|split; [|split]].
  - unfold StringTable_size. rewrite wrap_u32_small; lia.
  - intros j s Hj.
    destruct (Forall2_lookup_l _ _ _ _ _ Hrs Hj) as (r & Hr & i & -> & Hidx).
    exists i. split; [done|]. apply add_known; [done|].
    apply Hrange in Hidx. lia.
  - intros j k s s' i Hj Hk Hij Hik.
    apply (Hinj s s' i); by eapply Hret.
  - intros s Hs Hfresh.
    assert (Hnone : m_index t !! s = None)
      by (apply not_elem_of_dom; by rewrite Hdom, elem_of_list_to_set).
    split; [|split].
    + intros j i Hi.
      destruct (Forall2_lookup_r _ _ _ _ _ Hrs Hi) as (s' & _ & i' & [= <-] & Hidx).
      apply Hrange in Hidx. lia.
    + intros Hne. destruct Htop as [Hzero|[s' Hs']].
      * destruct l as [|s' l']; [done|].
        rewrite Hzero in Hcount. cbn in Hcount.
        rewrite size_union_alt, size_singleton in Hcount. lia.
      * assert (Hin : s' ∈ l)
          by (apply (elem_of_list_to_set (C := gset string));
              rewrite <- Hdom; by apply elem_of_dom_2 in Hs').
        apply list_elem_of_lookup in Hin as [j Hj].
        destruct (Forall2_lookup_l _ _ _ _ _ Hrs Hj)
          as (r & Hr & i & -> & Hidx).
        exists j. congruence.
    + destruct (add_unknown max_entries t s) as (t' & Hadd & _ & Hsz' & _);
        try done; [lia|].
      exists t'.
      destruct (decide (Z.of_nat (base.size (list_to_set l : gset string))
                        < max_entries)) as [Hlt|Hge].
      * rewrite decide_False in Hadd by lia. split; [done|].
        unfold StringTable_size. rewrite !wrap_u32_small; lia.
      * by rewrite decide_True in Hadd by lia.
Qed.

Lemma string_table_add_deduplicates_witness :
  (0 ≤ max_uncompressed_blob_size < UINT32_MAX
   ∧ Forall storable ["highway"; "name"; "highway"]
   ∧ Z.of_nat (base.size
                 (list_to_set ["highway"; "name"; "highway"] : gset string))
     ≤ max_uncompressed_blob_size)
  ∧ ∃ t0 rs t,
      StringTable_new = Some t0
      ∧ add_all max_uncompressed_blob_size ["highway"; "name"; "highway"] t0
        = Some (rs, t)
      ∧ StringTable_size t
        = Z.of_nat (base.size
                      (list_to_set ["highway"; "name"; "highway"]
                       : gset string)) + 1.
Proof.
  assert (H : 0 ≤ max_uncompressed_blob_size < UINT32_MAX
              ∧ Forall storable ["highway"; "name"; "highway"]
              ∧ Z.of_nat (base.size
                            (list_to_set ["highway"; "name"; "highway"]
                             : gset string))
                ≤ max_uncompressed_blob_size).
  { split; [by vm_compute|]. split.
    - repeat (constructor; [by vm_compute|]). constructor.
    - by vm_compute. }
  split; [exact H|].
  destruct H as (H1 & H2 & H3).
  destruct (string_table_add_deduplicates max_uncompressed_blob_size
              ["highway"; "name"; "highway"] H1 H2 H3)
    as (t0 & rs & t & Hnew & Hrun & Hsize & _).
  exists t0, rs, t. split; [exact Hnew|]. split; [exact Hrun|exact Hsize].
Defined.

(** C10, as stated: with [max_uncompressed_blob_size] texts in the table,
    here the first that many binary numerals, adding the next numeral does
    not return an index; it throws. *)
Lemma add_to_full_table_throws :
  ¬ add_returns_an_index max_uncompressed_blob_size.
Proof.
  apply (full_table_refutes max_uncompressed_blob_size
           (Z.to_nat max_uncompressed_blob_size)).
  - by vm_compute.
  - apply Z2Nat.id. by vm_compute.
Qed.

(** * Further properties *)

(** ** The vector as a sequence *)

Section VectorSequence.

Context {T : Type} `{!Element T, !Platform T}.

Implicit Types a : mmap_vector_base T.

Lemma read_range_in_range (d : list T) pos count :
  (pos + count ≤ length d)%nat →
  read_range d pos count = Some (take count (drop pos d)).
Proof.
  revert pos. induction count as [|count IH]; intros pos Hlen; cbn.
  - done.
  - destruct (lookup_lt_is_Some_2 d pos) as [x Hx]; [lia|]. rewrite Hx.
    rewrite IH by lia.
    by rewrite (drop_S _ _ _ Hx).
Qed.

Lemma iterate_well_formed a :
  well_formed a →
  iterate a = Ok (take (Z.to_nat (m_size a)) (data a)) a.
Proof.
  intros (Hpos & Hle & _). unfold iterate.
  rewrite read_range_in_range.
  - by rewrite drop_0.
  - unfold capacity, mapping_size, data in *. lia.
Qed.

(** [push_back] ends normally whenever the growth it may need is granted
    and does not wrap around. *)
Lemma push_back_succeeds a v :
  well_formed a →
  m_size a + 1 + mmap_vector_size_increment ≤ SIZE_MAX →
  (capacity a < m_size a + 1 →
   m_size a + 1 + mmap_vector_size_increment ≤ max_elems) →
  ∃ k : nat,
    push_back v a
    = Ok tt (set_size (m_size a + 1)
               (set_cells (<[Z.to_nat (m_size a) := v]>
                             (data a ++ replicate k empty_value)) a))
    ∧ (m_size a + 1 ≤ capacity a → k = 0%nat)
    ∧ (capacity a < m_size a + 1 →
       Z.of_nat k = m_size a + 1 + mmap_vector_size_increment - capacity a).
Proof.
  intros (Hpos & Hle & Hmax) Hfit Hgrant.
  assert (Hinc : mmap_vector_size_increment = 1048576) by done.
  destruct (decide (m_size a + 1 ≤ capacity a)) as [Hroom|Hfull].
  - exists 0%nat. split; [|split; [done|lia]].
    rewrite push_back_within by done. cbn. by rewrite app_nil_r.
  - exists (Z.to_nat (m_size a + 1 + mmap_vector_size_increment - capacity a)).
    split; [|split; lia].
    rewrite push_back_unfold.
    rewrite (wrap_size_small (m_size a + 1)) by lia.
    rewrite resize_eq. cbn zeta.
    rewrite (wrap_size_small (m_size a + 1 + _)) by lia.
    rewrite decide_False by lia. rewrite decide_True by lia.
    cbn [m_size set_size set_cells].
    replace (m_size a + 1 - 1) with (m_size a) by lia.
    rewrite wrap_size_small by lia.
    rewrite store_in_range; [done|].
    unfold capacity, mapping_size. cbn.
    rewrite length_app, length_replicate.
    unfold capacity, mapping_size, data in *. lia.
Qed.

(** X1.  [push_back] appends to what an iteration visits: on a well-formed
    vector, with the growth it may need granted and not wrapping around,
    [push_back(v)] ends normally and the loop from [begin()] to [end()]
    reads what it read before followed by [v]; [size()] is up by one. *)
Theorem push_back_appends_to_iteration a v :
  well_formed a →
  m_size a + 1 + mmap_vector_size_increment ≤ SIZE_MAX →
  (capacity a < m_size a + 1 →
   m_size a + 1 + mmap_vector_size_increment ≤ max_elems) →
  ∃ l a',
    iterate a = Ok l a
    ∧ push_back v a = Ok tt a'
    ∧ iterate a' = Ok (l ++ [v]) a'
    ∧ size a' = size a + 1.
Proof.
  intros Hwf Hfit Hgrant. pose proof Hwf as (Hpos & Hle & Hmax).
  destruct (push_back_succeeds a v Hwf Hfit Hgrant) as (k & Hpush & H0 & H1).
  assert (Hinc : mmap_vector_size_increment = 1048576) by done.
  assert (Hlen : (Z.to_nat (m_size a) ≤ length (data a))%nat)
    by (unfold capacity, mapping_size, data in *; lia).
  assert (Hk : (Z.to_nat (m_size a)
                < length (data a ++ replicate k empty_value))%nat).
  { rewrite length_app, length_replicate.
    destruct (decide (m_size a + 1 ≤ capacity a)) as [Hroom|Hfull].
    - unfold capacity, mapping_size, data in *. lia.
    - assert (Hlt : capacity a < m_size a + 1) by lia.
      specialize (H1 Hlt). unfold capacity, mapping_size, data in *. lia. }
  eexists _, _. split; [by apply iterate_well_formed|].
  split; [exact Hpush|]. split; [|done].
  unfold iterate. cbn [data m_mapping set_size set_cells cells m_size].
  rewrite read_range_in_range by (rewrite length_insert; lia).
  rewrite drop_0.
  replace (Z.to_nat (m_size a + 1)) with (S (Z.to_nat (m_size a))) by lia.
  rewrite (take_S_r _ _ v) by by apply list_lookup_insert_eq.
  rewrite take_insert_ge by lia.
  by rewrite take_app_le by done.
Qed.

(** X2.  After [clear()], [push_back(v)] writes slot 0: on a well-formed
    vector with at least one slot, the two calls leave [size() == 1], the
    capacity as it was, [at(0) == v], and every other slot as it was. *)
Theorem clear_then_push_back_overwrites_slot_0 a v :
  well_formed a → 1 ≤ capacity a →
  ∃ a',
    (clear ;;; push_back v) a = Ok tt a'
    ∧ size a' = 1
    ∧ capacity a' = capacity a
    ∧ at_ 0 a' = Ok v a'
    ∧ iterate a' = Ok [v] a'
    ∧ ∀ i : nat, (0 < i)%nat → data a' !! i = data a !! i.
Proof.
  intros (Hpos & Hle & Hmax) Hcap.
  assert (Hwf0 : well_formed (set_size 0 a)).
  { unfold well_formed. cbn [m_size set_size].
    change (capacity (set_size 0 a)) with (capacity a). lia. }
  unfold bind, clear, modify.
  rewrite push_back_within
    by (done || (cbn [m_size set_size];
                 change (capacity (set_size 0 a)) with (capacity a); lia)).
  cbn [m_size set_size set_cells data m_mapping cells].
  change (Z.to_nat 0) with 0%nat.
  assert (Hlen : (0 < length (cells (m_mapping a)))%nat)
    by (unfold capacity, mapping_size in *; lia).
  eexists. split; [done|]. split; [done|]. split.
  { unfold capacity, mapping_size. cbn. by rewrite length_insert. }
  split; [|split].
  - rewrite at_eq. cbn.
    by rewrite list_lookup_insert_eq by done.
  - unfold iterate, data, set_cells, set_size.
    cbn [m_mapping cells m_size].
    change (Z.to_nat (0 + 1)) with 1%nat. cbn [read_range].
    by rewrite list_lookup_insert_eq by done.
  - intros i Hi. cbn. by rewrite list_lookup_insert_ne by lia.
Qed.

(** The slots of a vector whose tail is empty. *)
Lemma tail_empty_data a :
  well_formed a → tail_empty a →
  data a
  = take (Z.to_nat (m_size a)) (data a)
    ++ replicate (length (data a) - Z.to_nat (m_size a)) empty_value.
Proof.
  intros (Hpos & Hle & _) Htail.
  rewrite <- (take_drop (Z.to_nat (m_size a)) (data a)) at 1.
  f_equal. apply list_eq. intros i.
  rewrite lookup_drop.
  destruct (decide (i < length (data a) - Z.to_nat (m_size a))%nat).
  - rewrite lookup_replicate_2 by done. apply Htail.
    unfold capacity, mapping_size, data in *. lia.
  - rewrite (proj1 (lookup_replicate_None _ _ _)) by lia.
    apply lookup_ge_None. lia.
Qed.

(** X3.  A growing [resize] brings only empty values into view: on a
    well-formed vector whose slots in [[size, capacity)] are empty,
    [resize(n)] with [n >= size()], its growth granted and not wrapping
    around, ends normally, and an iteration reads what it read before
    followed by [n - size()] empty values. *)
Theorem resize_up_shows_empty_values a n :
  well_formed a → tail_empty a →
  size a ≤ n → n + mmap_vector_size_increment ≤ SIZE_MAX →
  (capacity a < n → n + mmap_vector_size_increment ≤ max_elems) →
  ∃ l a',
    iterate a = Ok l a
    ∧ resize n a = Ok tt a'
    ∧ size a' = n
    ∧ iterate a'
      = Ok (l ++ replicate (Z.to_nat (n - size a)) empty_value) a'.
Proof.
  intros Hwf Htail Hn Hfit Hgrant. pose proof Hwf as (Hpos & Hle & Hmax).
  unfold size in *.
  assert (Hinc : mmap_vector_size_increment = 1048576) by done.
  assert (Hlen : Z.of_nat (length (data a)) = capacity a) by done.
  assert (Hres : ∃ k : nat,
             resize n a
             = Ok tt (set_size n (set_cells (data a ++ replicate k empty_value)
                                            a))
             ∧ n ≤ Z.of_nat (length (data a) + k)).
  { rewrite resize_eq. cbn zeta.
    rewrite (wrap_size_small (n + _)) by lia.
    destruct (decide (n ≤ capacity a)) as [Hroom|Hfull].
    - rewrite decide_True by lia. exists 0%nat.
      cbn. rewrite app_nil_r, set_cells_data. split; [done|lia].
    - rewrite decide_False by lia. rewrite decide_True by lia.
      eexists. split; [done|]. lia. }
  destruct Hres as (k & Hres & Hk).
  eexists _, _. split; [by apply iterate_well_formed|].
  split; [exact Hres|]. split; [done|].
  unfold iterate. cbn [data m_mapping set_size set_cells cells m_size].
  rewrite read_range_in_range
    by (rewrite length_app, length_replicate; lia).
  rewrite drop_0. f_equal.
  rewrite (tail_empty_data a Hwf Htail) at 1.
  rewrite <- app_assoc, <- replicate_add.
  rewrite take_app_ge by (rewrite length_take; lia).
  rewrite length_take, Nat.min_l by lia.
  rewrite take_replicate. f_equal. f_equal. lia.
Qed.

Lemma shrink_loop_fixed (d : list T) (n k : nat) :
  shrink_loop d n = Some k → shrink_loop d k = Some k.
Proof.
  intros (_ & _ & Hstop)%shrink_loop_sound.
  destruct Hstop as [->|(x & Hx & Hne)]; [done|].
  destruct k as [|k]; [done|]. cbn in *. rewrite Nat.sub_0_r in Hx.
  rewrite Hx. by rewrite decide_False.
Qed.

(** X4.  [shrink_to_fit] only drops empty values from the end, and doing it
    again changes nothing: on a well-formed vector it ends normally; what an
    iteration read before is what it reads afterwards followed by empty
    values; what it reads afterwards does not end with an empty value; and
    a second [shrink_to_fit] leaves the vector as the first left it. *)
Theorem shrink_to_fit_drops_empty_suffix_once a :
  well_formed a →
  ∃ a1 l1 (j : nat),
    shrink_to_fit a = Ok tt a1
    ∧ shrink_to_fit a1 = Ok tt a1
    ∧ iterate a1 = Ok l1 a1
    ∧ iterate a = Ok (l1 ++ replicate j empty_value) a
    ∧ last l1 ≠ Some empty_value
    ∧ size a = size a1 + Z.of_nat j
    ∧ data a1 = data a ∧ capacity a1 = capacity a.
Proof.
  intros Hwf. pose proof Hwf as (Hpos & Hle & Hmax).
  assert (Hlen : (Z.to_nat (m_size a) ≤ length (data a))%nat)
    by (unfold capacity, mapping_size, data in *; lia).
  destruct (shrink_loop_spec (data a) _ Hlen) as (k & Hk & Hkle & Hall & Hstop).
  assert (Hwf1 : well_formed (set_size (Z.of_nat k) a)).
  { unfold well_formed. cbn [m_size set_size].
    change (capacity (set_size _ a)) with (capacity a). lia. }
  exists (set_size (Z.of_nat k) a), (take k (data a)),
         (Z.to_nat (m_size a) - k)%nat.
  split; [unfold shrink_to_fit; by rewrite Hk|].
  split.
  { unfold shrink_to_fit. change (data (set_size _ a)) with (data a).
    cbn [set_size m_size].
    rewrite Nat2Z.id. by rewrite (shrink_loop_fixed _ _ _ Hk). }
  split.
  { rewrite iterate_well_formed by done. cbn [m_size set_size].
    by rewrite Nat2Z.id. }
  split.
  { rewrite iterate_well_formed by done. f_equal.
    apply list_eq. intros i.
    destruct (decide (i < k)%nat).
    - rewrite lookup_app_l by (rewrite length_take; lia).
      by rewrite !lookup_take_lt by lia.
    - rewrite lookup_app_r by (rewrite length_take; lia).
      rewrite length_take, Nat.min_l by lia.
      destruct (decide (i < Z.to_nat (m_size a))%nat).
      + rewrite lookup_take_lt by done.
        rewrite lookup_replicate_2 by lia. apply Hall. lia.
      + rewrite lookup_take_ge by lia. symmetry.
        apply lookup_replicate_None. lia. }
  split.
  { rewrite last_lookup, length_take, Nat.min_l by lia.
    destruct Hstop as [->|(x & Hx & Hne)]; [done|].
    destruct k as [|k]; [done|]. cbn in *. rewrite Nat.sub_0_r in Hx.
    rewrite lookup_take_lt by lia. rewrite Hx. congruence. }
  split; [unfold size; cbn; lia|done].
Qed.

(** X5.  One growth pays for the next [mmap_vector_size_increment] appends:
    when [push_back] on a full, well-formed vector grows the mapping, it
    leaves exactly one increment of free slots, and any further appends, up
    to that many, end normally without changing the capacity. *)
Theorem growth_pays_for_an_increment_of_appends a v (vs : list T) :
  well_formed a → size a = capacity a →
  m_size a + 1 + mmap_vector_size_increment ≤ SIZE_MAX →
  m_size a + 1 + mmap_vector_size_increment ≤ max_elems →
  Z.of_nat (length vs) ≤ mmap_vector_size_increment →
  ∃ a1 a2,
    push_back v a = Ok tt a1
    ∧ capacity a1 = size a + 1 + mmap_vector_size_increment
    ∧ capacity a1 - size a1 = mmap_vector_size_increment
    ∧ exec_all (OpPushBack <$> vs) a1 = Some a2
    ∧ capacity a2 = capacity a1
    ∧ size a2 = size a1 + Z.of_nat (length vs).
Proof.
  intros Hwf Hfull Hfit Hgrant Hvs. pose proof Hwf as (Hpos & Hle & Hmax).
  unfold size in *.
  assert (Hinc : mmap_vector_size_increment = 1048576) by done.
  destruct (push_back_succeeds a v Hwf Hfit) as (k & Hpush & _ & Hk);
    [done|].
  rewrite Hpush. set (a1 := set_size _ _).
  assert (Hcap1 : capacity a1
                  = m_size a + 1 + mmap_vector_size_increment).
  { unfold capacity, mapping_size. cbn.
    rewrite length_insert, length_app, length_replicate.
    unfold capacity, mapping_size, data in *. lia. }
  assert (Hsz1 : m_size a1 = m_size a + 1) by done.
  assert (Hwf1 : well_formed a1) by (unfold well_formed; lia).
  destruct (push_backs_within vs a1 Hwf1) as (a2 & Hrun & Hsz2 & _ & Hlen2 & _);
    [lia|].
  exists a1, a2. repeat split; try done; try lia.
  unfold capacity, mapping_size. fold (data a2) (data a1). by rewrite Hlen2.
Qed.

(** X6.  Two [reserve]s in a row are one [reserve] of the larger request:
    when the second request can be granted, [reserve(n)] followed by
    [reserve(m)] leaves what [reserve(max(n, m))] leaves, and throws when it
    throws. *)
Theorem reserve_twice_is_reserve_max a n m :
  m ≤ max_elems →
  (reserve n ;;; reserve m) a = reserve (Z.max n m) a.
Proof.
  intros Hm. pose proof (capacity_nonneg a) as Hc.
  assert (Hlen : Z.of_nat (length (data a)) = capacity a) by done.
  unfold bind. rewrite (reserve_eq a n), (reserve_eq a (Z.max n m)).
  destruct (decide (n ≤ capacity a)) as [Hn|Hn].
  - rewrite reserve_eq.
    destruct (decide (m ≤ capacity a));
      destruct (decide (Z.max n m ≤ capacity a)); try lia; [done|].
    destruct (decide (m ≤ max_elems));
      destruct (decide (Z.max n m ≤ max_elems)); try lia.
    by rewrite Z.max_r by lia.
  - destruct (decide (Z.max n m ≤ capacity a)); [lia|].
    destruct (decide (n ≤ max_elems)) as [Hgrant|Hrefuse].
    + set (a1 := set_cells _ a).
      assert (Hcap1 : capacity a1 = n).
      { unfold capacity, mapping_size. cbn.
        rewrite length_app, length_replicate. lia. }
      rewrite reserve_eq, Hcap1.
      destruct (decide (Z.max n m ≤ max_elems)); [|lia].
      destruct (decide (m ≤ n)).
      * by rewrite Z.max_l by lia.
      * destruct (decide (m ≤ max_elems)); [|lia]. rewrite Z.max_r by lia.
        subst a1. unfold set_cells. cbn. do 3 f_equal.
        rewrite <- app_assoc, <- replicate_add. do 2 f_equal. lia.
    + by destruct (decide (Z.max n m ≤ max_elems)); [lia|].
Qed.

(** X7.  No operation gives a slot back or rewrites one it was not asked
    to: after any operation with [size_t] arguments that leaves an
    object, the capacity is at least what it was, the mapping is backed by
    what it was, and every slot there was holds what it held, but for the
    slot at the old [size()] when the operation was a [push_back] that
    ended normally. *)
Theorem operations_never_shrink_or_disturb o a a' :
  0 ≤ m_size a ≤ SIZE_MAX → size_t_args o →
  state_after (exec o a) = Some a' →
  capacity a ≤ capacity a'
  ∧ backing (m_mapping a') = backing (m_mapping a)
  ∧ ∀ i : nat,
      Z.of_nat i < capacity a →
      data a' !! i = data a !! i
      ∨ ∃ v, o = OpPushBack v ∧ Z.of_nat i = m_size a
             ∧ exec o a = Ok tt a' ∧ data a' !! i = Some v.
Proof.
  intros Hs Hargs Hrun.
  pose proof (exec_summary o a a' Hs Hargs Hrun) as Hsum.
  assert (Hext : ∀ k : nat,
             capacity a
             ≤ capacity (set_cells (data a ++ replicate k empty_value) a)
             ∧ ∀ i : nat, Z.of_nat i < capacity a →
                 (data a ++ replicate k empty_value) !! i = data a !! i).
  { intros k. unfold capacity, mapping_size, data. cbn.
    rewrite length_app. split; [lia|].
    intros i Hi. apply lookup_app_l. lia. }
  destruct o as [v|n|n| | |n].
  - destruct Hsum as [[-> _]|(Hok & k & -> & Hlt)]; [by (split; [lia|split; [done|by left]])|].
    destruct (Hext k) as [Hcap Hsame].
    split; [|split; [done|]].
    + unfold capacity, mapping_size in *. cbn in *.
      by rewrite length_insert.
    + intros i Hi. cbn [data set_size set_cells m_mapping cells].
      destruct (decide (i = Z.to_nat (m_size a))) as [->|Hne].
      * right. exists v. repeat split; try done; [lia|].
        apply list_lookup_insert_eq.
        rewrite length_app, length_replicate. lia.
      * left. rewrite list_lookup_insert_ne by done. by apply Hsame.
  - destruct Hsum as [k ->]. destruct (Hext k) as [Hcap Hsame].
    split; [done|]. split; [done|]. intros i Hi. left. by apply Hsame.
  - destruct Hsum as [->|[k ->]]; [by (split; [lia|split; [done|by left]])|].
    destruct (Hext k) as [Hcap Hsame].
    split; [done|]. split; [done|]. intros i Hi. left. by apply Hsame.
  - subst a'. by (split; [reflexivity|split; [done|by left]]).
  - destruct Hsum as (j & -> & _).
    by (split; [reflexivity|split; [done|by left]]).
  - subst a'. by (split; [reflexivity|split; [done|by left]]).
Qed.

End VectorSequence.

(** ** The output factory *)

Section OutputFactoryFacts.

Context {Encoding : Type} `{Countable Encoding}.
Context {File Queue Output : Type}.

Variable encoding : File → Encoding.

Implicit Types f : OutputFactory Encoding File Queue Output.
Implicit Types c : create_output_type (File := File) (Queue := Queue)
                                      (Output := Output).

(** How far the loop of [register_output_format] gets: the encodings it
    inserts, and whether one is left that it cannot insert. *)
Lemma register_output_format_prefix (es : list Encoding) c :
  ∀ f, ∃ pre post,
    es = pre ++ post
    ∧ NoDup pre
    ∧ (∀ e, e ∈ pre → m_callbacks f !! e = None)
    ∧ (register_output_format es c f).1 = bool_decide (post = [])
    ∧ (∀ e, m_callbacks (register_output_format es c f).2 !! e
            = if decide (e ∈ pre) then Some c else m_callbacks f !! e)
    ∧ match post with
      | [] => True
      | e :: _ => e ∈ pre ∨ is_Some (m_callbacks f !! e)
      end.
Proof.
  induction es as [|e es IH]; intros f; cbn [register_output_format].
  - exists [], []. repeat split; try done.
    + apply NoDup_nil_2.
    + intros e He. by apply elem_of_nil in He.
  - destruct (m_callbacks f !! e) as [c0|] eqn:He.
    + exists [], (e :: es). repeat split; try done.
      * apply NoDup_nil_2.
      * intros e' He'. by apply elem_of_nil in He'.
      * right. by rewrite He.
    + destruct (IH {| m_callbacks := <[e := c]> (m_callbacks f) |})
        as (pre & post & -> & Hnodup & Hfresh & Hres & Hmap & Hclash).
      cbn [m_callbacks] in *.
      assert (Hnotin : e ∉ pre).
      { intros Hin. apply Hfresh in Hin. by rewrite lookup_insert_eq in Hin. }
      exists (e :: pre), post. split; [done|]. split; [by apply NoDup_cons|].
      split; [|split; [done|split]].
      * intros e' [->|Hin]%elem_of_cons; [done|].
        apply Hfresh in Hin.
        by apply lookup_insert_None in Hin as [? _].
      * intros e'. rewrite Hmap.
        destruct (decide (e' = e)) as [->|Hne].
        -- rewrite decide_False by done. rewrite decide_True by set_solver.
           apply lookup_insert_eq.
        -- rewrite lookup_insert_ne by done.
           destruct (decide (e' ∈ pre)).
           ++ by rewrite decide_True by set_solver.
           ++ by rewrite decide_False by set_solver.
      * destruct post as [|e' post]; [done|].
        destruct Hclash as [Hin|Hsome]; [left; set_solver|].
        destruct (decide (e' = e)) as [->|Hne]; [left; set_solver|].
        right. by rewrite lookup_insert_ne in Hsome.
Qed.

(** X8.  [register_output_format] returns [true] exactly when the encodings
    are pairwise different and none of them is registered; then each of them
    maps to the create function, every other encoding to what it mapped to
    before, and [create_output] on a file with one of these encodings calls
    the create function. *)
Theorem register_output_format_succeeds_iff (es : list Encoding) c f :
  ((register_output_format es c f).1 = true
   ↔ NoDup es ∧ ∀ e, e ∈ es → m_callbacks f !! e = None)
  ∧ ((register_output_format es c f).1 = true →
     (∀ e, m_callbacks (register_output_format es c f).2 !! e
           = if decide (e ∈ es) then Some c else m_callbacks f !! e)
     ∧ ∀ file q, encoding file ∈ es →
         create_output encoding file q (register_output_format es c f).2
         = Created (c file q)).
Proof.
  destruct (register_output_format_prefix es c f)
    as (pre & post & -> & Hnodup & Hfresh & Hres & Hmap & Hclash).
  rewrite Hres. split; [split|].
  - intros ->%bool_decide_eq_true. by rewrite app_nil_r.
  - intros [Hnd Hnone]. apply bool_decide_eq_true.
    destruct post as [|e post]; [done|]. exfalso.
    destruct Hclash as [Hin|[c0 Hsome]].
    + apply NoDup_app in Hnd as (_ & Hdisj & _).
      apply (Hdisj e Hin). set_solver.
    + rewrite Hnone in Hsome by set_solver. done.
  - intros ->%bool_decide_eq_true. rewrite app_nil_r in *.
    split; [done|]. intros file q Hin.
    unfold create_output. rewrite Hmap. by rewrite decide_True.
Qed.

(** X9.  [register_output_format] never replaces or removes a registration,
    and what it has inserted before it meets an encoding it cannot insert
    stays inserted: the encodings split into those before the first one that
    is registered already or occurs a second time and the rest; the former
    map to the create function, everything else maps to what it mapped to
    before, and the result is [false] exactly when the rest is not
    empty. *)
Theorem register_output_format_keeps_and_does_not_roll_back
    (es : list Encoding) c f :
  m_callbacks f ⊆ m_callbacks (register_output_format es c f).2
  ∧ ∃ pre post,
      es = pre ++ post
      ∧ ((register_output_format es c f).1 = false ↔ post ≠ [])
      ∧ (∀ e, e ∈ pre →
              m_callbacks f !! e = None
              ∧ m_callbacks (register_output_format es c f).2 !! e = Some c)
      ∧ (∀ e, e ∉ pre →
              m_callbacks (register_output_format es c f).2 !! e
              = m_callbacks f !! e)
      ∧ match post with
        | [] => True
        | e :: _ => e ∈ pre ∨ is_Some (m_callbacks f !! e)
        end.
Proof.
  destruct (register_output_format_prefix es c f)
    as (pre & post & Hes & Hnodup & Hfresh & Hres & Hmap & Hclash).
  split.
  - apply map_subseteq_spec. intros e c0 He. rewrite Hmap.
    case_decide as Hin; [|done]. apply Hfresh in Hin. congruence.
  - exists pre, post. split; [done|]. split; [|split; [|split; [|done]]].
    + rewrite Hres. destruct post; cbn; split; try done.
    + intros e Hin. split; [by apply Hfresh|].
      rewrite Hmap. by rewrite decide_True.
    + intros e Hnotin. rewrite Hmap. by rewrite decide_False.
Qed.

(** X10.  [unregister_output_format] returns [true] exactly when the
    encoding was registered; afterwards [create_output] throws
    [FileEncodingNotSupported] for a file of that encoding and does for
    every other file what it did before, and the encoding can be registered
    again. *)
Theorem unregister_output_format_removes (e : Encoding) c f :
  ((unregister_output_format e f).1 = true ↔ is_Some (m_callbacks f !! e))
  ∧ (∀ file q,
        create_output encoding file q (unregister_output_format e f).2
        = if decide (encoding file = e) then FileEncodingNotSupported
          else create_output encoding file q f)
  ∧ (register_output_format [e] c (unregister_output_format e f).2).1 = true
  ∧ (m_callbacks f !! e = None →
     (unregister_output_format e (register_output_format [e] c f).2).2 = f).
Proof.
  unfold unregister_output_format, create_output. cbn.
  split; [apply bool_decide_eq_true|]. split; [|split].
  - intros file q. case_decide as He.
    + by rewrite He, lookup_delete_eq.
    + by rewrite lookup_delete_ne.
  - by rewrite lookup_delete_eq.
  - intros Hnone. rewrite Hnone. cbn.
    destruct f as [m]. cbn in *. f_equal.
    rewrite delete_insert_eq. by apply delete_id.
Qed.

End OutputFactoryFacts.

(** ** The output thread *)

Section FileOutputFacts.

Context {Sink : Type}.

Variable reliable_write : Sink → string → Sink.

(** X11.  The output thread writes every string up to and including the
    first empty one, in order, and takes nothing after it from the queue;
    while no empty string has come it does not return. *)
Theorem FileOutput_run_stops_at_first_empty
    (queue : list string) (sink : Sink) :
  (∀ pre post,
      queue = pre ++ EmptyString :: post →
      Forall (λ data, data ≠ EmptyString) pre →
      FileOutput_run reliable_write queue sink
      = Some (post, foldl reliable_write sink (pre ++ [EmptyString])))
  ∧ (Forall (λ data, data ≠ EmptyString) queue →
     FileOutput_run reliable_write queue sink = None)
  ∧ (∀ rest sink',
        FileOutput_run reliable_write queue sink = Some (rest, sink') →
        ∃ pre, queue = pre ++ EmptyString :: rest
               ∧ Forall (λ data, data ≠ EmptyString) pre
               ∧ sink' = foldl reliable_write sink (pre ++ [EmptyString])).
Proof.
  revert sink. induction queue as [|data queue IH]; intros sink.
  - split; [|split; [done|done]].
    intros pre post Hq. by destruct pre.
  - destruct (IH (reliable_write sink data)) as (IH1 & IH2 & IH3).
    cbn [FileOutput_run]. split; [|split].
    + intros [|d pre] post Hq Hpre; cbn in Hq; injection Hq as -> ->.
      * by rewrite decide_True.
      * apply Forall_cons in Hpre as [Hd Hpre].
        rewrite decide_False by done. by apply IH1.
    + intros [Hd Hq]%Forall_cons. rewrite decide_False by done.
      by apply IH2.
    + intros rest sink'. case_decide as Hd.
      * intros [= <- <-]. exists []. by rewrite Hd.
      * intros (pre & -> & Hpre & ->)%IH3.
        exists (data :: pre). split; [done|]. split; [by constructor|done].
Qed.

End FileOutputFacts.

(** ** Walking the string store *)

Section StoreWalk.

Context `{!StringCapacity}.

Lemma append_length (a b : string) :
  String.length (a +:+ b) = (String.length a + String.length b)%nat.
Proof.
  induction a as [|c a IH]; [done|].
  change (String c a +:+ b) with (String c (a +:+ b)). cbn. by rewrite IH.
Qed.

Lemma append_assoc (a b c : string) : (a +:+ b) +:+ c = a +:+ (b +:+ c).
Proof.
  induction a as [|x a IH]; [done|].
  change (String x a +:+ b) with (String x (a +:+ b)).
  change (String x (a +:+ b) +:+ c) with (String x ((a +:+ b) +:+ c)).
  change (String x a +:+ (b +:+ c)) with (String x (a +:+ (b +:+ c))).
  by rewrite IH.
Qed.

Lemma append_empty_r (a : string) : a +:+ EmptyString = a.
Proof.
  induction a as [|x a IH]; [done|].
  change (String x a +:+ EmptyString) with (String x (a +:+ EmptyString)).
  by rewrite IH.
Qed.

Lemma pack_app (a b : list string) : pack (a ++ b) = pack a +:+ pack b.
Proof.
  induction a as [|s a IH]; [done|]. cbn [app pack].
  rewrite IH, append_assoc. f_equal.
Qed.

Lemma pack_length (es : list string) :
  (length es ≤ String.length (pack es))%nat.
Proof.
  induction es as [|s es IH]; [done|]. cbn [pack length].
  rewrite append_length. cbn. lia.
Qed.

Lemma pack_empty (es : list string) : pack es = EmptyString → es = [].
Proof.
  intros Hp. pose proof (pack_length es) as Hlen. rewrite Hp in Hlen.
  destruct es; [done|]. cbn in Hlen. lia.
Qed.

Lemma text_length_c_string (s rest : string) :
  c_string s → text_length (s +:+ String NUL rest) = String.length s.
Proof.
  induction s as [|c s IH]; cbn.
  - intros _. by repeat case_decide.
  - intros [Hc Hs].
    change (String c s +:+ String NUL rest)
      with (String c (s +:+ String NUL rest)).
    cbn [text_length]. rewrite decide_False by done. by rewrite IH.
Qed.

Lemma collect_texts_walks st i l :
  walks st i l →
  ∀ fuel, (length l < fuel)%nat → collect_texts fuel st i = Some l.
Proof.
  induction 1 as [|i i' s l Hne Hderef Hnext Hwalk IH]; intros fuel Hfuel.
  - destruct fuel as [|fuel]; [lia|]. cbn.
    unfold const_iterator_eq. by rewrite bool_decide_true.
  - destruct fuel as [|fuel]; [cbn in Hfuel; lia|]. cbn [collect_texts].
    rewrite Hne, Hderef, Hnext. rewrite IH by (cbn in Hfuel; lia). done.
Qed.

(** Inside a chunk: from the start of a text to the end of the chunk. *)
Lemma walks_chunk st (j : nat) (post : list string) :
  ∀ pre rest,
    m_chunks st !! j = Some (pack (pre ++ post)) →
    Forall c_string post → post ≠ [] →
    walks st (const_iterator_at st (S j)) rest →
    walks st {| m_it := j; m_pos := Some (String.length (pack pre)) |}
          (post ++ rest).
Proof.
  induction post as [|s post IH]; intros pre rest Hchunk Hc Hne Hrest;
    [done|].
  apply Forall_cons in Hc as [Hs Hc].
  assert (Hj : (j < length (m_chunks st))%nat)
    by by apply lookup_lt_Some in Hchunk.
  assert (Hpack : pack (pre ++ s :: post)
                  = pack pre +:+ (s +:+ String NUL (pack post)))
    by by rewrite pack_app.
  assert (Hdrop : string_drop (String.length (pack pre))
                              (pack (pre ++ s :: post))
                  = s +:+ String NUL (pack post))
    by by rewrite Hpack, string_drop_app.
  assert (Hlast : String.length (pack (pre ++ s :: post))
                  = (String.length (pack pre) + String.length s
                     + S (String.length (pack post)))%nat).
  { rewrite Hpack, !append_length. cbn. lia. }
  cbn [app].
  apply (walks_step st _
           (if decide (post = [])
            then const_iterator_at st (S j)
            else {| m_it := j;
                    m_pos := Some (String.length (pack (pre ++ [s]))) |})).
  - unfold const_iterator_eq, StringStore_end, const_iterator_at. cbn.
    apply bool_decide_eq_false. intros [Heq _]. lia.
  - unfold const_iterator_deref. cbn [m_it m_pos]. rewrite Hchunk.
    by rewrite Hdrop, until_nul_c_string.
  - unfold const_iterator_next. cbn [m_it m_pos]. rewrite Hchunk.
    rewrite decide_True by lia.
    rewrite Hdrop, text_length_c_string by done. rewrite Hlast.
    rewrite (decide_False (P := (_ + _ = _ + _ + S _)%nat)) by lia.
    destruct (decide (post = [])) as [->|Hpost].
    + cbn [pack String.length]. by rewrite decide_True by lia.
    + assert (String.length (pack post) ≠ 0%nat).
      { intros H0. apply Hpost, pack_empty.
        by destruct (pack post). }
      rewrite decide_False by lia. do 3 f_equal.
      rewrite pack_app, append_length. cbn [pack].
      rewrite append_length. cbn. lia.
  - destruct (decide (post = [])) as [->|Hpost]; [done|].
    apply IH; try done. by rewrite <- app_assoc.
Qed.

(** From the start of chunk [j] to the end of the store. *)
Lemma walks_chunks st (ess : list (list string)) :
  m_chunks st = pack <$> ess →
  Forall (Forall c_string) ess → Forall (λ es, es ≠ []) ess →
  ∀ j, (j ≤ length ess)%nat →
       walks st (const_iterator_at st j) (concat (drop j ess)).
Proof.
  intros Hchunks Hc Hne.
  assert (Hlen : length (m_chunks st) = length ess)
    by by rewrite Hchunks, length_fmap.
  intros j Hj. remember (length ess - j)%nat as n eqn:Hn.
  revert j Hj Hn. induction n as [|n IH]; intros j Hj Hn.
  - assert (j = length ess) as -> by lia.
    rewrite drop_all. cbn. rewrite <- Hlen. apply walks_end.
  - destruct (lookup_lt_is_Some_2 ess j) as [es Hes]; [lia|].
    rewrite (drop_S _ _ _ Hes). cbn [concat].
    unfold const_iterator_at at 1. rewrite decide_False by lia.
    apply (walks_chunk st j es []).
    + rewrite Hchunks, list_lookup_fmap, Hes. done.
    + by apply (Forall_lookup_1 _ _ _ _ Hc Hes).
    + by apply (Forall_lookup_1 _ _ _ _ Hne Hes).
    + apply IH; lia.
Qed.

Lemma concat_length_le_fuel (ess : list (list string)) :
  (length (concat ess)
   < S (foldr (λ chunk n, S (String.length chunk) + n) 0 (pack <$> ess)))%nat.
Proof.
  apply Nat.lt_succ_r.
  induction ess as [|es ess IH]; [done|].
  cbn [concat fmap list_fmap foldr].
  rewrite length_app. pose proof (pack_length es). lia.
Qed.

(** The loop from [begin()] to [end()] sees the texts of the chunks, the
    front chunk first. *)
Lemma StringStore_texts_holds st ess :
  store_holds st ess → StringStore_texts st = Some (concat ess).
Proof.
  intros (Hchunks & Hc & Hshape & _).
  unfold StringStore_texts, StringStore_begin.
  destruct Hshape as [->|[Hess Hne]].
  - rewrite Hchunks. cbn. unfold const_iterator_eq.
    by rewrite bool_decide_true.
  - destruct ess as [|es ess]; [done|].
    rewrite Hchunks at 1. cbn [fmap list_fmap].
    apply Forall_cons in Hne as Hne'. destruct Hne' as [Hes _].
    rewrite decide_False by (intros Hp; by apply pack_empty in Hp).
    apply collect_texts_walks.
    + apply (walks_chunks st (es :: ess) Hchunks Hc Hne 0%nat). lia.
    + rewrite Hchunks. apply concat_length_le_fuel.
Qed.

Lemma bytes_of_app (a b : list string) :
  bytes_of (a ++ b) = bytes_of a + bytes_of b.
Proof. unfold bytes_of. rewrite pack_app, append_length. lia. Qed.

Lemma bytes_of_singleton (s : string) :
  bytes_of [s] = Z.of_nat (String.length s) + 1.
Proof. unfold bytes_of. cbn [pack]. rewrite append_length. cbn. lia. Qed.

Lemma pack_snoc (es : list string) (s : string) :
  pack (es ++ [s]) = pack es +:+ s +:+ String NUL EmptyString.
Proof. by rewrite pack_app. Qed.

Lemma points_to_deref st p s : points_to st p s → deref st p = s.
Proof.
  intros (pre & rest & Hchunk & Hoff & Hs). unfold deref.
  rewrite Hchunk, Hoff. by rewrite string_drop_app, until_nul_c_string.
Qed.


(** What one [add] does to the chunks and to the pointers handed out. *)
Lemma StringStore_add_holds (s : string) st es ess :
  store_holds st (es :: ess) → c_string s →
  Z.of_nat (String.length s) + 1 ≤ m_chunk_size st →
  ∃ p st',
    StringStore_add s st = Ok p st'
    ∧ m_chunk_size st' = m_chunk_size st
    ∧ store_holds st'
        (if decide (bytes_of es + (Z.of_nat (String.length s) + 1)
                    > chunk_capacity st)
         then [s] :: es :: ess else (es ++ [s]) :: ess)
    ∧ points_to st' p s
    ∧ ∀ q t, points_to st q t → points_to st' q t.
Proof.
  intros (Hchunks & Hc & Hshape & Hbytes) Hs Hfit.
  apply Forall_cons in Hc as [Hces Hcess].
  apply Forall_cons in Hbytes as [Hbes Hbess].
  cbn [fmap list_fmap] in Hchunks.
  unfold StringStore_add. rewrite bool_decide_true by done.
  rewrite Hchunks. fold (bytes_of es).
  pose proof (reserved_capacity_ge (m_chunk_size st)) as Hcap.
  fold (chunk_capacity st) in Hcap.
  destruct (decide (bytes_of es + (Z.of_nat (String.length s) + 1)
                    > chunk_capacity st)) as [Hfull|Hroom].
  - rewrite !bool_decide_true by done.
    cbn [add_chunk m_chunks m_chunk_size]. rewrite Hchunks.
    assert (Hes : es ≠ []).
    { intros ->. unfold bytes_of in Hfull. cbn in Hfull. lia. }
    eexists _, _. split; [done|]. split; [done|]. split; [|split].
    + split; [done|]. split; [by repeat constructor|].
      split; [|unfold chunk_capacity in *; cbn [m_chunk_size];
               repeat constructor; try done;
               rewrite bytes_of_singleton; lia].
      right. split; [done|].
      destruct Hshape as [[= -> _]|[_ Hne]]; [done|].
      by constructor.
    + exists EmptyString, EmptyString. cbn [m_chunks fst snd].
      rewrite reverse_cons.
      rewrite lookup_app_r by (rewrite length_reverse; cbn; lia).
      by rewrite length_reverse, Nat.sub_diag.
    + intros q t (pre & rest & Hq & Hoff & Ht).
      exists pre, rest. split; [|done]. cbn [m_chunks].
      rewrite Hchunks in Hq.
      rewrite reverse_cons.
      by apply lookup_app_l_Some.
  - rewrite !bool_decide_false by done. rewrite Hchunks.
    eexists _, _. split; [done|]. split; [done|]. split; [|split].
    + split; [cbn [m_chunks fmap list_fmap]; by rewrite pack_snoc|].
      split.
      { constructor; [|done]. apply Forall_app. by repeat constructor. }
      split.
      { right. split; [done|]. constructor; [by destruct es|].
        destruct Hshape as [[= _ ->]|[_ Hne]]; [done|].
        by apply Forall_cons in Hne as [_ ?]. }
      unfold chunk_capacity in *. cbn [m_chunk_size]. constructor; [|done].
      rewrite bytes_of_app, bytes_of_singleton. lia.
    + exists (pack es), EmptyString. cbn [m_chunks fst snd].
      rewrite reverse_cons.
      rewrite lookup_app_r by (rewrite length_reverse; lia).
      by rewrite length_reverse, Nat.sub_diag.
    + intros q t (pre & rest & Hq & Hoff & Ht).
      rewrite Hchunks, reverse_cons in Hq. unfold points_to. cbn [m_chunks].
      destruct (decide (q.1 < length (reverse (pack <$> ess)))%nat) as [Hlt|Hge].
      * exists pre, rest. split; [|done]. rewrite reverse_cons.
        rewrite lookup_app_l in Hq by done. by rewrite lookup_app_l.
      * rewrite lookup_app_r in Hq by lia.
        destruct (q.1 - length (reverse (pack <$> ess)))%nat as [|n] eqn:Hn;
          [|done].
        cbn in Hq. injection Hq as Hq.
        exists pre, (rest +:+ s +:+ String NUL EmptyString).
        split; [|done]. rewrite reverse_cons.
        rewrite lookup_app_r by lia. rewrite Hn. cbn. f_equal.
        by rewrite Hq, !append_assoc.
Qed.


End StoreWalk.


(** ** The string store and the table, as sequences *)

Section StoreSequence.

Context `{!StringCapacity}.




End StoreSequence.

Section TableWalk.

Context `{!StringCapacity}.

Variable max_entries : Z.

Lemma bytes_of_nonneg (l : list string) : 0 ≤ bytes_of l.
Proof. unfold bytes_of. lia. Qed.

Lemma bytes_of_cons (s : string) (l : list string) :
  bytes_of (s :: l) = Z.of_nat (String.length s) + 1 + bytes_of l.
Proof.
  change (s :: l) with ([s] ++ l).
  by rewrite bytes_of_app, bytes_of_singleton.
Qed.

Lemma StringTable_new_lists :
  ∃ t0, StringTable_new = Some t0 ∧ table_lists t0 [] [[EmptyString]].
Proof.
  eexists. split; [exact StringTable_new_eq|].
  split; [|split; [reflexivity|split; [reflexivity|split;
    [reflexivity|split; [reflexivity|]]]]].
  - split; [reflexivity|]. split; [by repeat constructor|].
    split; [right; split; [done|by repeat constructor]|].
    repeat constructor.
    pose proof (reserved_capacity_ge (1024 * 1024)) as Hcap.
    unfold chunk_capacity. change (bytes_of [EmptyString]) with 1.
    cbn [m_chunk_size m_strings]. lia.
  - intros s i. cbn [m_index]. rewrite lookup_empty, lookup_nil.
    split; [done|by intros [_ ?]].
Qed.

(** A text the index does not know goes behind the texts the store
    holds and gets the next index. *)
Lemma add_unknown_lists t keys ess s :
  table_lists t keys ess → storable s → m_index t !! s = None →
  Z.of_nat (length keys) < UINT32_MAX →
  ∃ t' ess',
    StringTable_add max_entries s t
    = (if decide (st_size t + 1 > max_entries)
       then Throw pbf_error t' else Ok (st_size t + 1) t')
    ∧ table_lists t' (keys ++ [s]) ess'.
Proof.
  intros (Hst & Hcs & Hcat & Hone & Hsize & Hidx) [Hc Hfit] Hnew Hroom.
  destruct ess as [|es ess].
  { by rewrite reverse_nil in Hcat. }
  rewrite <- Hcs in Hfit.
  destruct (StringStore_add_holds s (m_strings t) es ess Hst Hc Hfit)
    as (p & st' & Hadd & Hcs' & Hst' & Hp & _).
  apply points_to_deref in Hp.
  assert (Hn : wrap_u32 (st_size t + 1) = st_size t + 1)
    by (apply wrap_u32_small; lia).
  eexists {| m_strings := st';
             m_index := <[s := st_size t + 1]> (m_index t);
             st_size := st_size t + 1 |}, _.
  split.
  { unfold StringTable_add, bind, gets. rewrite Hnew.
    unfold store_add. rewrite Hadd.
    unfold pre_increment_size, index_assign. cbn.
    rewrite Hn, Hp. unfold throw, ret.
    case_bool_decide;
      destruct (decide (st_size t + 1 > max_entries)); done || lia. }
  unfold table_lists. cbn [m_strings m_index st_size].
  split; [exact Hst'|]. split; [congruence|].
  split; [|split; [|split]].
  - rewrite app_comm_cons, <- Hcat.
    destruct (decide _).
    + rewrite (reverse_cons (es :: ess) [s]), concat_app.
      cbn [concat]. by rewrite app_nil_r.
    + rewrite !reverse_cons, !concat_app. cbn [concat].
      by rewrite !app_nil_r, <- app_assoc.
  - intros Hsmall. rewrite app_comm_cons, bytes_of_app,
      bytes_of_singleton in Hsmall.
    unfold chunk_capacity in Hsmall, Hone |- *. rewrite Hcs' in Hsmall.
    assert (Hold : bytes_of (EmptyString :: keys)
                   ≤ reserved_capacity (m_chunk_size (m_strings t)))
      by lia.
    apply Hone in Hold as [= -> ->].
    rewrite decide_False by lia. done.
  - rewrite length_app. cbn. lia.
  - intros s' i. rewrite lookup_insert_Some. split.
    + intros [[<- <-]|[Hne Hold]].
      * split; [lia|].
        replace (Z.to_nat (st_size t + 1 - 1)) with (length keys) by lia.
        by rewrite lookup_app_r, Nat.sub_diag.
      * apply Hidx in Hold as [Hi Hk]. split; [done|].
        by apply lookup_app_l_Some.
    + intros [Hi Hk]. apply lookup_app_Some in Hk as [Hk|[Hge Hk]].
      * right. assert (Hold : m_index t !! s' = Some i) by by apply Hidx.
        split; [congruence|done].
      * left.
        destruct (Z.to_nat (i - 1) - length keys)%nat eqn:Hd; [|done].
        cbn in Hk. injection Hk as <-. split; [done|]. lia.
Qed.

(** Adding the texts of [l] in turn while the table has room: every call
    returns an index, and the text sits at that place of the order in
    which the store took the texts. *)
Lemma add_all_lists (l : list string) :
  ∀ t keys ess,
    table_lists t keys ess → Forall storable l →
    max_entries < UINT32_MAX →
    Z.of_nat (length keys + length l) ≤ max_entries →
    ∃ rs t' more ess',
      add_all max_entries l t = Some (rs, t')
      ∧ table_lists t' (keys ++ more) ess'
      ∧ bytes_of more ≤ bytes_of l
      ∧ (length more ≤ length l)%nat
      ∧ (NoDup (keys ++ l) → more = l)
      ∧ ∀ (j : nat) s, l !! j = Some s →
          ∃ i, rs !! j = Some (Some i) ∧ 1 ≤ i
               ∧ (keys ++ more) !! Z.to_nat (i - 1) = Some s.
Proof.
  induction l as [|s l IH]; intros t keys ess Ht Hl Hmax Hroom.
  - exists [], t, [], ess. rewrite app_nil_r.
    split; [done|]. split; [done|]. split; [done|]. split; [done|].
    split; [done|]. by intros j s.
  - apply Forall_cons in Hl as [Hs Hl]. cbn [length] in Hroom.
    cbn [add_all]. destruct (m_index t !! s) as [i|] eqn:Hknown.
    + pose proof Ht as (_ & _ & _ & _ & _ & Hidx).
      pose proof (proj1 (Hidx s i) Hknown) as [Hi Hk].
      pose proof (lookup_lt_Some _ _ _ Hk) as Hlt.
      rewrite (add_known max_entries t s i Hknown) by lia.
      destruct (IH t keys ess Ht Hl Hmax) as (rs & t' & more & ess' & Hrun
        & Ht' & Hbytes & Hcount & _ & Hrs); [lia|].
      rewrite Hrun. exists (Some i :: rs), t', more, ess'.
      split; [done|]. split; [done|].
      split; [rewrite bytes_of_cons; lia|]. split; [cbn [length]; lia|].
      split.
      { intros Hnd. exfalso. apply NoDup_app in Hnd as (_ & Hdisj & _).
        apply (Hdisj s); [by apply list_elem_of_lookup_2 in Hk|].
        apply list_elem_of_here. }
      intros [|j] s' Hj.
      * injection Hj as <-. exists i. split; [done|]. split; [done|].
        by apply lookup_app_l_Some.
      * by apply Hrs.
    + destruct (add_unknown_lists t keys ess s Ht Hs Hknown)
        as (t1 & ess1 & Hadd & Ht1); [lia|].
      pose proof Ht as (_ & _ & _ & _ & Hsize & _).
      rewrite decide_False in Hadd by lia. rewrite Hadd.
      destruct (IH t1 (keys ++ [s]) ess1 Ht1 Hl Hmax)
        as (rs & t' & more & ess' & Hrun & Ht' & Hbytes & Hcount & Hsame
            & Hrs).
      { rewrite length_app. cbn. lia. }
      rewrite Hrun. rewrite <- app_assoc in Ht', Hrs, Hsame.
      exists (Some (st_size t + 1) :: rs), t', (s :: more), ess'.
      split; [done|]. split; [done|].
      split; [rewrite !bytes_of_cons; lia|]. split; [cbn [length]; lia|].
      split; [intros Hnd; f_equal; by apply Hsame|].
      intros [|j] s' Hj.
      * injection Hj as <-. exists (st_size t + 1).
        split; [done|]. split; [lia|].
        replace (Z.to_nat (st_size t + 1 - 1)) with (length keys) by lia.
        by rewrite lookup_app_r, Nat.sub_diag.
      * by apply Hrs.
Qed.

End TableWalk.

Section TableSequence.

Context `{!StringCapacity}.

Variable max_entries : Z.

Lemma add_all_from_new (l : list string) :
  max_entries < UINT32_MAX → Forall storable l →
  Z.of_nat (length l) ≤ max_entries →
  ∃ t0 rs t keys ess,
    StringTable_new = Some t0
    ∧ add_all max_entries l t0 = Some (rs, t)
    ∧ table_lists t keys ess
    ∧ bytes_of keys ≤ bytes_of l
    ∧ (length keys ≤ length l)%nat
    ∧ (NoDup l → keys = l)
    ∧ ∀ (j : nat) s, l !! j = Some s →
        ∃ i, rs !! j = Some (Some i) ∧ 1 ≤ i
             ∧ keys !! Z.to_nat (i - 1) = Some s.
Proof.
  intros Hmax Hl Hroom.
  destruct StringTable_new_lists as (t0 & Hnew & Ht0).
  destruct (add_all_lists max_entries l t0 [] [[EmptyString]] Ht0 Hl Hmax)
    as (rs & t & keys & ess & Hrun & Ht & Hbytes & Hcount & Hsame & Hrs);
    [cbn; lia|].
  cbn [app] in Ht, Hrs, Hsame. by exists t0, rs, t, keys, ess.
Qed.

Lemma lookup_cons_pred (keys : list string) (i : Z) :
  1 ≤ i →
  (EmptyString :: keys) !! Z.to_nat i = keys !! Z.to_nat (i - 1).
Proof.
  intros Hi. replace (Z.to_nat i) with (S (Z.to_nat (i - 1))) by lia. done.
Qed.

(** X15.  While the texts of a table fit the first chunk of its store, a
    loop from [begin()] to [end()] meets them in index order: the empty
    text of the constructor at place 0, and every text added at the place
    [add] returned for it; there are [size()] places. *)
Theorem StringTable_texts_in_index_order (l : list string) :
  max_entries < UINT32_MAX → Forall storable l →
  Z.of_nat (length l) ≤ max_entries →
  1 + bytes_of l ≤ 1024 * 1024 →
  ∃ t0 rs t texts,
    StringTable_new = Some t0
    ∧ add_all max_entries l t0 = Some (rs, t)
    ∧ StringTable_texts t = Some texts
    ∧ texts !! 0%nat = Some EmptyString
    ∧ Z.of_nat (length texts) = StringTable_size t
    ∧ ∀ (j : nat) s, l !! j = Some s →
        ∃ i, rs !! j = Some (Some i) ∧ texts !! Z.to_nat i = Some s.
Proof.
  intros Hmax Hl Hroom Hsmall.
  destruct (add_all_from_new l Hmax Hl Hroom)
    as (t0 & rs & t & keys & ess & Hnew & Hrun & Ht & Hbytes & Hcount
        & _ & Hrs).
  destruct Ht as (Hst & Hcs & _ & Hone & Hsize & Hidx).
  assert (Hess : ess = [EmptyString :: keys]).
  { apply Hone. unfold chunk_capacity. rewrite Hcs.
    pose proof (reserved_capacity_ge (1024 * 1024)) as Hcap.
    rewrite bytes_of_cons. cbn [String.length]. lia. }
  subst ess.
  exists t0, rs, t, (EmptyString :: keys).
  split; [done|]. split; [done|].
  split.
  { unfold StringTable_texts.
    rewrite (StringStore_texts_holds _ _ Hst). cbn [concat].
    by rewrite app_nil_r. }
  split; [done|]. split.
  { unfold StringTable_size. rewrite Hsize, wrap_u32_small; [cbn; lia|lia]. }
  intros j s Hj. destruct (Hrs j s Hj) as (i & Hi & Hpos & Hk).
  exists i. split; [done|]. by rewrite lookup_cons_pred.
Qed.

(** X16.  In general the loop over a table goes chunk after chunk with
    the newest chunk first: the texts it meets are those of the chunks
    [ess], none empty and none beyond its capacity, which in the order the
    chunks were made spell the empty text and then the texts in index
    order (the texts added, when they are pairwise different).  Once the
    texts have outgrown the capacity of the first chunk, place 0 of the
    loop holds a text that [add] gave an index of 1 or more. *)
Theorem StringTable_texts_newest_chunk_first (l : list string) :
  max_entries < UINT32_MAX → Forall storable l →
  Z.of_nat (length l) ≤ max_entries →
  ∃ t0 rs t keys ess,
    StringTable_new = Some t0
    ∧ add_all max_entries l t0 = Some (rs, t)
    ∧ StringTable_texts t = Some (concat ess)
    ∧ concat (reverse ess) = EmptyString :: keys
    ∧ (NoDup l → keys = l)
    ∧ Forall (λ es, es ≠ []
                    ∧ bytes_of es ≤ reserved_capacity (1024 * 1024)) ess
    ∧ (∀ (j : nat) s, l !! j = Some s →
         ∃ i, rs !! j = Some (Some i)
              ∧ (EmptyString :: keys) !! Z.to_nat i = Some s)
    ∧ (reserved_capacity (1024 * 1024) < 1 + bytes_of keys →
       ∃ s i, concat ess !! 0%nat = Some s
              ∧ m_index t !! s = Some i ∧ 1 ≤ i).
Proof.
  intros Hmax Hl Hroom.
  destruct (add_all_from_new l Hmax Hl Hroom)
    as (t0 & rs & t & keys & ess & Hnew & Hrun & Ht & Hbytes & Hcount
        & Hsame & Hrs).
  destruct Ht as (Hst & Hcs & Hcat & _ & Hsize & Hidx).
  pose proof Hst as (_ & _ & Hshape & Hfit).
  unfold chunk_capacity in Hfit. rewrite Hcs in Hfit.
  assert (Hne : Forall (λ es : list string, es ≠ []) ess).
  { destruct Hshape as [->|[_ Hne]]; [done|exact Hne]. }
  exists t0, rs, t, keys, ess.
  split; [exact Hnew|]. split; [exact Hrun|].
  split; [by apply StringStore_texts_holds|]. split; [exact Hcat|].
  split; [exact Hsame|]. split; [|split].
  - apply Forall_forall. intros es Hes.
    split; [by apply (proj1 (Forall_forall _ _) Hne)|
            by apply (proj1 (Forall_forall _ _) Hfit)].
  - intros j s Hj. destruct (Hrs j s Hj) as (i & Hi & Hpos & Hk).
    exists i. split; [done|]. by rewrite lookup_cons_pred.
  - intros Hbig.
    destruct ess as [|es ess']; [by rewrite reverse_nil in Hcat|].
    apply Forall_cons in Hne as [Hes Hne].
    destruct es as [|s es]; [done|].
    destruct ess' as [|es' ess''].
    { rewrite reverse_singleton in Hcat. cbn [concat] in Hcat.
      rewrite app_nil_r in Hcat. injection Hcat as -> ->.
      apply Forall_cons in Hfit as [Hfit _].
      rewrite bytes_of_cons in Hfit. cbn [String.length] in Hfit. lia. }
    rewrite reverse_cons, concat_app in Hcat. cbn [concat] in Hcat.
    rewrite app_nil_r in Hcat.
    destruct (concat (reverse (es' :: ess''))) as [|e older] eqn:Holder.
    { apply Forall_cons in Hne as [Hes' _].
      rewrite reverse_cons, concat_app in Holder. cbn [concat] in Holder.
      rewrite app_nil_r in Holder.
      apply app_eq_nil in Holder as [_ ?]. done. }
    injection Hcat as -> Hkeys.
    exists s, (Z.of_nat (S (length older))).
    split; [done|]. split; [|lia].
    apply Hidx. split; [lia|].
    replace (Z.to_nat _) with (length older) by lia.
    rewrite <- Hkeys. rewrite lookup_app_r by lia.
    by rewrite Nat.sub_diag.
Qed.

(** X17.  [clear()] starts the table over: its size is 1 again, a loop
    over it meets the empty text only, and a text, known before or not, is
    given index 1 by the next [add]; the loop then meets the empty text
    and that text, if the two fit the chunk together. *)
Theorem StringTable_clear_starts_over (t : StringTable) (s : string) :
  m_chunk_size (m_strings t) = 1024 * 1024 → storable s →
  1 ≤ max_entries →
  ∃ t0 t1,
    StringTable_clear t = Some t0
    ∧ StringTable_size t0 = 1
    ∧ StringTable_texts t0 = Some [EmptyString]
    ∧ StringTable_add max_entries s t0 = Ok 1 t1
    ∧ (Z.of_nat (String.length s) + 2 ≤ 1024 * 1024 →
       StringTable_texts t1 = Some [EmptyString; s]).
Proof.
  intros Hcs Hs Hmax.
  destruct StringTable_new_lists as (t0 & Hnew & Ht0).
  assert (Hclear : StringTable_clear t = Some t0).
  { rewrite <- Hnew. unfold StringTable_clear, StringTable_new,
      StringStore_clear, StringStore_new, add_chunk. by rewrite Hcs. }
  pose proof (reserved_capacity_ge (1024 * 1024)) as Hcap.
  destruct (add_unknown_lists max_entries t0 [] [[EmptyString]] s Ht0 Hs)
    as (t1 & ess1 & Hadd & Ht1).
  { destruct Ht0 as (_ & _ & _ & _ & _ & Hidx).
    destruct (m_index t0 !! s) as [i|] eqn:Hi; [|done].
    apply Hidx in Hi as [_ Hi]. by rewrite lookup_nil in Hi. }
  { by cbv. }
  pose proof Ht0 as (Hst0 & _ & _ & _ & Hsize0 & _).
  cbn [length] in Hsize0. rewrite Hsize0 in Hadd.
  rewrite decide_False in Hadd by lia.
  exists t0, t1. split; [done|].
  split; [unfold StringTable_size; by rewrite Hsize0|].
  split; [unfold StringTable_texts;
          by rewrite (StringStore_texts_holds _ _ Hst0)|].
  split; [done|]. intros Hsmall.
  destruct Ht1 as (Hst1 & Hcs1 & Hcat & Hone & _).
  unfold StringTable_texts. rewrite (StringStore_texts_holds _ _ Hst1).
  f_equal. cbn [app] in Hone, Hcat.
  rewrite Hone; [done|].
  unfold chunk_capacity. rewrite Hcs1.
  rewrite !bytes_of_cons. cbn [String.length].
  unfold bytes_of. cbn [pack String.length]. lia.
Qed.

End TableSequence.

(** ** The further properties at work *)

Lemma push_back_appends_to_iteration_witness :
  (well_formed sample_vector
   ∧ m_size sample_vector + 1 + mmap_vector_size_increment ≤ SIZE_MAX)
  ∧ ∃ a', push_back 9 sample_vector = Ok tt a'
          ∧ iterate a' = Ok [7; 8; 9] a'
          ∧ size a' = 3.
Proof.
  assert (H : well_formed sample_vector
              ∧ m_size sample_vector + 1 + mmap_vector_size_increment
                ≤ SIZE_MAX) by by vm_compute.
  split; [exact H|].
  destruct (push_back_appends_to_iteration sample_vector 9
              (proj1 H) (proj2 H))
    as (l & a' & Hl & Hpush & Hiter & Hsize).
  { intros _. by vm_compute. }
  injection Hl as <-.
  exists a'. split; [exact Hpush|]. split; [exact Hiter|exact Hsize].
Defined.

Lemma clear_then_push_back_overwrites_slot_0_witness :
  (well_formed sample_vector ∧ 1 ≤ capacity sample_vector)
  ∧ ∃ a', (clear ;;; push_back 9) sample_vector = Ok tt a'
          ∧ size a' = 1
          ∧ at_ 0 a' = Ok 9 a'
          ∧ data a' !! 1%nat = Some 8.
Proof.
  assert (H : well_formed sample_vector ∧ 1 ≤ capacity sample_vector)
    by by vm_compute.
  split; [exact H|].
  destruct (clear_then_push_back_overwrites_slot_0 sample_vector 9
              (proj1 H) (proj2 H))
    as (a' & Hrun & Hsize & _ & Hat & _ & Hrest).
  exists a'. split; [exact Hrun|]. split; [exact Hsize|].
  split; [exact Hat|]. rewrite (Hrest 1%nat); [reflexivity|lia].
Defined.

Lemma resize_up_shows_empty_values_witness :
  (well_formed sample_vector ∧ tail_empty sample_vector
   ∧ size sample_vector ≤ 4
   ∧ 4 + mmap_vector_size_increment ≤ SIZE_MAX)
  ∧ ∃ a', resize 4 sample_vector = Ok tt a'
          ∧ size a' = 4
          ∧ iterate a' = Ok [7; 8; SIZE_MAX; SIZE_MAX] a'.
Proof.
  assert (H : well_formed sample_vector ∧ tail_empty sample_vector
              ∧ size sample_vector ≤ 4
              ∧ 4 + mmap_vector_size_increment ≤ SIZE_MAX).
  { split; [by vm_compute|]. split; [|by vm_compute].
    intros i Hi. unfold capacity, mapping_size in Hi. cbn in Hi.
    destruct i as [|[|[|[|i]]]]; try reflexivity; lia. }
  split; [exact H|].
  destruct H as (H1 & H2 & H3 & H4).
  destruct (resize_up_shows_empty_values sample_vector 4 H1 H2 H3 H4)
    as (l & a' & Hl & Hrun & Hsize & Hiter).
  { intros Hlt. exfalso. revert Hlt. by vm_compute. }
  injection Hl as <-.
  exists a'. split; [exact Hrun|]. split; [exact Hsize|exact Hiter].
Defined.

Lemma shrink_to_fit_drops_empty_suffix_once_witness :
  well_formed (set_size 4 sample_vector)
  ∧ ∃ a1 l1 (j : nat),
      shrink_to_fit (set_size 4 sample_vector) = Ok tt a1
      ∧ shrink_to_fit a1 = Ok tt a1
      ∧ iterate a1 = Ok l1 a1
      ∧ [7; 8; SIZE_MAX; SIZE_MAX] = l1 ++ replicate j SIZE_MAX
      ∧ last l1 ≠ Some SIZE_MAX.
Proof.
  assert (H : well_formed (set_size 4 sample_vector)) by by vm_compute.
  split; [exact H|].
  destruct (shrink_to_fit_drops_empty_suffix_once (set_size 4 sample_vector)
              H)
    as (a1 & l1 & j & Hrun & Hagain & Hiter & Hbefore & Hlast & _).
  injection Hbefore as Hbefore.
  exists a1, l1, j. split; [exact Hrun|]. split; [exact Hagain|].
  split; [exact Hiter|]. split; [exact Hbefore|exact Hlast].
Defined.

Lemma growth_pays_for_an_increment_of_appends_witness :
  (well_formed full_vector ∧ size full_vector = capacity full_vector
   ∧ m_size full_vector + 1 + mmap_vector_size_increment ≤ SIZE_MAX
   ∧ m_size full_vector + 1 + mmap_vector_size_increment
     ≤ max_elems (T := Z)
   ∧ Z.of_nat (length [12; 13]) ≤ mmap_vector_size_increment)
  ∧ ∃ a1 a2,
      push_back 11 full_vector = Ok tt a1
      ∧ capacity a1 - size a1 = mmap_vector_size_increment
      ∧ exec_all (OpPushBack <$> [12; 13]) a1 = Some a2
      ∧ capacity a2 = capacity a1
      ∧ size a2 = size a1 + 2.
Proof.
  assert (H : well_formed full_vector
              ∧ size full_vector = capacity full_vector
              ∧ m_size full_vector + 1 + mmap_vector_size_increment
                ≤ SIZE_MAX
              ∧ m_size full_vector + 1 + mmap_vector_size_increment
                ≤ max_elems (T := Z)
              ∧ Z.of_nat (length [12; 13]) ≤ mmap_vector_size_increment)
    by by vm_compute.
  split; [exact H|].
  destruct H as (H1 & H2 & H3 & H4 & H5).
  destruct (growth_pays_for_an_increment_of_appends full_vector 11 [12; 13]
              H1 H2 H3 H4 H5)
    as (a1 & a2 & Hpush & _ & Hfree & Hrun & Hcap & Hsize).
  exists a1, a2. split; [exact Hpush|]. split; [exact Hfree|].
  split; [exact Hrun|]. split; [exact Hcap|exact Hsize].
Defined.

Lemma reserve_twice_is_reserve_max_witness :
  5 ≤ max_elems (T := Z)
  ∧ (reserve 6 ;;; reserve 5) sample_vector = reserve 6 sample_vector.
Proof.
  assert (H : 5 ≤ max_elems (T := Z)) by by vm_compute.
  split; [exact H|].
  exact (reserve_twice_is_reserve_max sample_vector 6 5 H).
Defined.

Lemma operations_never_shrink_or_disturb_witness :
  (0 ≤ m_size sample_vector ≤ SIZE_MAX
   ∧ size_t_args (OpPushBack 9)
   ∧ state_after (exec (OpPushBack 9) sample_vector)
     = Some (set_size 3 (set_cells [7; 8; 9; SIZE_MAX] sample_vector)))
  ∧ capacity sample_vector
    ≤ capacity (set_size 3 (set_cells [7; 8; 9; SIZE_MAX] sample_vector)).
Proof.
  assert (H : 0 ≤ m_size sample_vector ≤ SIZE_MAX
              ∧ size_t_args (OpPushBack 9)
              ∧ state_after (exec (OpPushBack 9) sample_vector)
                = Some (set_size 3
                          (set_cells [7; 8; 9; SIZE_MAX] sample_vector))).
  { split; [by vm_compute|]. split; [exact I|]. by vm_compute. }
  split; [exact H|].
  destruct H as (H1 & H2 & H3).
  exact (proj1 (operations_never_shrink_or_disturb _ _ _ H1 H2 H3)).
Defined.

Lemma string_repeat_length (c : Ascii.ascii) (n : nat) :
  String.length (string_repeat c n) = n.
Proof. induction n as [|n IH]; [reflexivity|]. cbn. by rewrite IH. Qed.

Lemma c_string_string_repeat (c : Ascii.ascii) (n : nat) :
  c ≠ NUL → c_string (string_repeat c n).
Proof. intros Hc. induction n as [|n IH]; [exact I|]. by split. Qed.

Lemma string_repeat_neq (c d : Ascii.ascii) (n : nat) :
  c ≠ d → (0 < n)%nat → string_repeat c n ≠ string_repeat d n.
Proof.
  intros Hcd Hn. destruct n as [|n]; [lia|]. cbn. intros [= Heq _].
  by apply Hcd.
Qed.



Lemma StringTable_texts_in_index_order_witness :
  (max_uncompressed_blob_size < UINT32_MAX
   ∧ Forall storable ["highway"; "name"; "highway"]
   ∧ Z.of_nat (length ["highway"; "name"; "highway"])
     ≤ max_uncompressed_blob_size
   ∧ 1 + bytes_of ["highway"; "name"; "highway"] ≤ 1024 * 1024)
  ∧ ∃ t0 rs t texts,
      StringTable_new = Some t0
      ∧ add_all max_uncompressed_blob_size ["highway"; "name"; "highway"] t0
        = Some (rs, t)
      ∧ StringTable_texts t = Some texts
      ∧ texts !! 0%nat = Some EmptyString
      ∧ Z.of_nat (length texts) = StringTable_size t.
Proof.
  assert (H : max_uncompressed_blob_size < UINT32_MAX
              ∧ Forall storable ["highway"; "name"; "highway"]
              ∧ Z.of_nat (length ["highway"; "name"; "highway"])
                ≤ max_uncompressed_blob_size
              ∧ 1 + bytes_of ["highway"; "name"; "highway"]
                ≤ 1024 * 1024).
  { split; [by vm_compute|]. split.
    - repeat (constructor; [by vm_compute|]). constructor.
    - by vm_compute. }
  split; [exact H|].
  destruct H as (H1 & H2 & H3 & H4).
  destruct (StringTable_texts_in_index_order max_uncompressed_blob_size
              ["highway"; "name"; "highway"] H1 H2 H3 H4)
    as (t0 & rs & t & texts & Hnew & Hrun & Htexts & Hfirst & Hlen & _).
  exists t0, rs, t, texts. split; [exact Hnew|]. split; [exact Hrun|].
  split; [exact Htexts|]. split; [exact Hfirst|exact Hlen].
Defined.

Lemma StringTable_texts_newest_chunk_first_witness :
  let l := [string_repeat "a" (Z.to_nat 600000);
            string_repeat "b" (Z.to_nat 600000)] in
  (max_uncompressed_blob_size < UINT32_MAX
   ∧ Forall storable l
   ∧ Z.of_nat (length l) ≤ max_uncompressed_blob_size)
  ∧ ∃ t0 rs t ess,
      StringTable_new = Some t0
      ∧ add_all max_uncompressed_blob_size l t0 = Some (rs, t)
      ∧ StringTable_texts t = Some (concat ess)
      ∧ concat (reverse ess) = EmptyString :: l
      ∧ ∃ s i, concat ess !! 0%nat = Some s
               ∧ m_index t !! s = Some i ∧ 1 ≤ i.
Proof.
  intros l.
  assert (Hlen : ∀ c, Z.of_nat (String.length
                                  (string_repeat c (Z.to_nat 600000)))
                      = 600000)
    by (intros c; rewrite string_repeat_length; lia).
  assert (Hstorable : ∀ c, c ≠ NUL →
                           storable (string_repeat c (Z.to_nat 600000))).
  { intros c Hc. split; [by apply c_string_string_repeat|].
    rewrite Hlen. lia. }
  assert (H : max_uncompressed_blob_size < UINT32_MAX
              ∧ Forall storable l
              ∧ Z.of_nat (length l) ≤ max_uncompressed_blob_size).
  { split; [reflexivity|]. split.
    - apply Forall_cons. split; [apply Hstorable; discriminate|].
      apply Forall_cons. split; [apply Hstorable; discriminate|].
      apply Forall_nil_2.
    - intros Hgt. discriminate Hgt. }
  split; [exact H|].
  destruct H as (H1 & H2 & H3).
  destruct (StringTable_texts_newest_chunk_first max_uncompressed_blob_size
              l H1 H2 H3)
    as (t0 & rs & t & keys & ess & Hnew & Hrun & Htexts & Hcat & Hsame & _
        & _ & Hfirst).
  assert (Hkeys : keys = l).
  { apply Hsame. apply NoDup_cons. split; [|apply NoDup_singleton].
    intros Hin. apply list_elem_of_singleton in Hin. revert Hin.
    apply string_repeat_neq; [discriminate|lia]. }
  rewrite Hkeys in Hcat, Hfirst.
  exists t0, rs, t, ess. split; [exact Hnew|]. split; [exact Hrun|].
  split; [exact Htexts|]. split; [exact Hcat|].
  apply Hfirst. unfold l. rewrite !bytes_of_cons, !Hlen.
  change (bytes_of []) with 0.
  change (reserved_capacity (1024 * 1024)) with 1048576. lia.
Defined.

Lemma StringTable_clear_starts_over_witness :
  let t := {| m_strings := {| m_chunk_size := 1024 * 1024;
                              m_chunks := [pack [EmptyString; "name"]] |};
              m_index := {["name" := 1]};
              st_size := 1 |} in
  (m_chunk_size (m_strings t) = 1024 * 1024 ∧ storable "name"
   ∧ 1 ≤ max_uncompressed_blob_size)
  ∧ ∃ t0 t1,
      StringTable_clear t = Some t0
      ∧ StringTable_size t0 = 1
      ∧ StringTable_add max_uncompressed_blob_size "name" t0 = Ok 1 t1.
Proof.
  intros t.
  assert (H : m_chunk_size (m_strings t) = 1024 * 1024 ∧ storable "name"
              ∧ 1 ≤ max_uncompressed_blob_size) by by vm_compute.
  split; [exact H|].
  destruct H as (H1 & H2 & H3).
  destruct (StringTable_clear_starts_over max_uncompressed_blob_size
              t "name" H1 H2 H3)
    as (t0 & t1 & Hclear & Hsize & _ & Hadd & _).
  exists t0, t1. split; [exact Hclear|]. split; [exact Hsize|exact Hadd].
Defined.
